(** * xpubprincipals: principals of the children of an extended public key

    A shallow embedding of [main.go] and of the library routines it calls.
    Byte slices and Go strings are lists of byte values ([Z] in [0, 256));
    a Go [uint32] is a [Z] reduced modulo [2^32]; a panic is [None] in the
    option monad, and a Go result pair [(value, error)] is a Rocq pair. *)

From Stdlib Require Import Ascii.
From stdpp Require Import base numbers list option strings.

Local Open Scope Z_scope.

(** ** Machine integers and byte strings *)

Abbreviation bytes := (list Z).
Abbreviation gostring := (list Z).

(** Go's conversions [byte(x)] and [uint32(x)]. *)
Definition byte (x : Z) : Z := Z.land x 255.
Definition uint32 (x : Z) : Z := x mod 2 ^ 32.

(** The byte of a character and the bytes of a string literal. *)
Definition chr (c : ascii) : Z := Z.of_N (N_of_ascii c).

Fixpoint str (s : string) : gostring :=
  match s with
  | EmptyString => []
  | String c s' => chr c :: str s'
  end.

Definition is_byte (b : Z) : Prop := 0 ≤ b < 256.

(** ** encoding/binary *)

Module binary.

(** [binary.BigEndian.PutUint32] into a fresh four-byte slice. *)
Definition BigEndian_PutUint32 (v : Z) : bytes :=
  [byte (v ≫ 24); byte (v ≫ 16); byte (v ≫ 8); byte v].

(** [binary.BigEndian.PutUint64]. *)
Definition BigEndian_PutUint64 (v : Z) : bytes :=
  [byte (v ≫ 56); byte (v ≫ 48); byte (v ≫ 40); byte (v ≫ 32);
   byte (v ≫ 24); byte (v ≫ 16); byte (v ≫ 8); byte v].

End binary.

(** ** crypto/sha256, the 224-bit variant *)

Module sha256.

Definition chunk : nat := 64.

Definition _K : list Z :=
  [0x428A2F98; 0x71374491; 0xB5C0FBCF; 0xE9B5DBA5;
   0x3956C25B; 0x59F111F1; 0x923F82A4; 0xAB1C5ED5;
   0xD807AA98; 0x12835B01; 0x243185BE; 0x550C7DC3;
   0x72BE5D74; 0x80DEB1FE; 0x9BDC06A7; 0xC19BF174;
   0xE49B69C1; 0xEFBE4786; 0x0FC19DC6; 0x240CA1CC;
   0x2DE92C6F; 0x4A7484AA; 0x5CB0A9DC; 0x76F988DA;
   0x983E5152; 0xA831C66D; 0xB00327C8; 0xBF597FC7;
   0xC6E00BF3; 0xD5A79147; 0x06CA6351; 0x14292967;
   0x27B70A85; 0x2E1B2138; 0x4D2C6DFC; 0x53380D13;
   0x650A7354; 0x766A0ABB; 0x81C2C92E; 0x92722C85;
   0xA2BFE8A1; 0xA81A664B; 0xC24B8B70; 0xC76C51A3;
   0xD192E819; 0xD6990624; 0xF40E3585; 0x106AA070;
   0x19A4C116; 0x1E376C08; 0x2748774C; 0x34B0BCB5;
   0x391C0CB3; 0x4ED8AA4A; 0x5B9CCA4F; 0x682E6FF3;
   0x748F82EE; 0x78A5636F; 0x84C87814; 0x8CC70208;
   0x90BEFFFA; 0xA4506CEB; 0xBEF9A3F7; 0xC67178F2].

(** [bits.RotateLeft32(x, -k)] on a 32-bit word. *)
Definition rotr (x k : Z) : Z :=
  uint32 (Z.lor (x ≫ k) (x ≪ (32 - k))).

(** [^x] on a 32-bit word. *)
Definition not32 (x : Z) : Z := Z.lxor x 0xFFFFFFFF.

(** The first sixteen words of the schedule: big-endian words of the block. *)
Fixpoint words (p : bytes) : list Z :=
  match p with
  | b0 :: b1 :: b2 :: b3 :: p' =>
      Z.lor (Z.lor (Z.lor (b0 ≪ 24) (b1 ≪ 16)) (b2 ≪ 8)) b3 :: words p'
  | _ => []
  end.

(** One step of the loop [for i := 16; i < 64; i++] filling [w[i]]. *)
Definition extend (w : list Z) : list Z :=
  let i := length w in
  let v1 := w !!! (i - 2)%nat in
  let t1 := Z.lxor (Z.lxor (rotr v1 17) (rotr v1 19)) (v1 ≫ 10) in
  let v2 := w !!! (i - 15)%nat in
  let t2 := Z.lxor (Z.lxor (rotr v2 7) (rotr v2 18)) (v2 ≫ 3) in
  w ++ [uint32 (t1 + w !!! (i - 7)%nat + t2 + w !!! (i - 16)%nat)].

Definition schedule (p : bytes) : list Z :=
  Nat.iter 48 extend (words (take chunk p)).

Record regs := Regs { ra : Z; rb : Z; rc : Z; rd : Z;
                      re : Z; rf : Z; rg : Z; rh : Z }.

(** The initial state of the 224-bit variant ([init0_224] .. [init7_224]). *)
Definition init224 : regs :=
  Regs 0xC1059ED8 0x367CD507 0x3070DD17 0xF70E5939
       0xFFC00B31 0x68581511 0x64F98FA7 0xBEFA4FA4.

(** One round of the compression loop, with [k = _K[i]] and [wi = w[i]]. *)
Definition round (s : regs) (kw : Z * Z) : regs :=
  let '(Regs a b c d e f g h) := s in
  let t1 := uint32 (h + Z.lxor (Z.lxor (rotr e 6) (rotr e 11)) (rotr e 25)
                      + Z.lxor (Z.land e f) (Z.land (not32 e) g)
                      + kw.1 + kw.2) in
  let t2 := uint32 (Z.lxor (Z.lxor (rotr a 2) (rotr a 13)) (rotr a 22)
                    + Z.lxor (Z.lxor (Z.land a b) (Z.land a c)) (Z.land b c)) in
  Regs (uint32 (t1 + t2)) a b c (uint32 (d + t1)) e f g.

(** The body of [blockGeneric] for one 64-byte block. *)
Definition block (h : regs) (p : bytes) : regs :=
  let s := foldl round h (zip _K (schedule p)) in
  Regs (uint32 (ra h + ra s)) (uint32 (rb h + rb s))
       (uint32 (rc h + rc s)) (uint32 (rd h + rd s))
       (uint32 (re h + re s)) (uint32 (rf h + rf s))
       (uint32 (rg h + rg s)) (uint32 (rh h + rh s)).

(** [for len(p) >= chunk { ...; p = p[chunk:] }]; the fuel bounds the
    number of blocks. *)
Fixpoint blockGeneric (fuel : nat) (h : regs) (p : bytes) : regs :=
  match fuel with
  | O => h
  | S fuel' =>
      if decide (chunk ≤ length p)%nat
      then blockGeneric fuel' (block h p) (drop chunk p)
      else h
  end.

(** The padding written by [checkSum]: a one bit, zeros up to 56 bytes
    modulo 64, and the length in bits as a big-endian 64-bit word. *)
Definition padding (len : Z) : bytes :=
  let t := if decide (len mod 64 < 56) then 56 - len mod 64
           else 64 + 56 - len mod 64 in
  0x80 :: replicate (Z.to_nat (t - 1)) 0
    ++ binary.BigEndian_PutUint64 ((len ≪ 3) mod 2 ^ 64).

(** [sha256.Sum224]: the state after the padded message, of which the
    first seven words are written out. *)
Definition Sum224 (data : bytes) : bytes :=
  let p := data ++ padding (Z.of_nat (length data)) in
  let '(Regs h0 h1 h2 h3 h4 h5 h6 _) :=
    blockGeneric (length p) init224 p in
  binary.BigEndian_PutUint32 h0 ++ binary.BigEndian_PutUint32 h1 ++
  binary.BigEndian_PutUint32 h2 ++ binary.BigEndian_PutUint32 h3 ++
  binary.BigEndian_PutUint32 h4 ++ binary.BigEndian_PutUint32 h5 ++
  binary.BigEndian_PutUint32 h6.

End sha256.

(** ** hash/crc32 *)

Module crc32.

Definition IEEE : Z := 0xedb88320.

(** The inner loop of [simpleMakeTable]: eight shift-and-reduce steps. *)
Definition step (crc : Z) : Z :=
  if decide (Z.land crc 1 = 1) then Z.lxor (crc ≫ 1) IEEE else crc ≫ 1.

(** Entry [i] of the table of the IEEE polynomial. *)
Definition IEEETable (i : Z) : Z := Nat.iter 8 step i.

(** [simpleUpdate]: [crc = tab[byte(crc)^v] ^ (crc >> 8)] for each byte. *)
Definition update (crc : Z) (p : bytes) : Z :=
  foldl (fun crc v => Z.lxor (IEEETable (Z.lxor (byte crc) v)) (crc ≫ 8)) crc p.

(** [crc32.ChecksumIEEE]. *)
Definition ChecksumIEEE (data : bytes) : Z :=
  Z.lxor (update (Z.lxor 0 0xFFFFFFFF) data) 0xFFFFFFFF.

End crc32.

(** ** encoding/base32 *)

Module base32.

Definition encodeStd : gostring := str "ABCDEFGHIJKLMNOPQRSTUVWXYZ234567".

(** [enc.encode[b&31]]. *)
Definition enc (b : Z) : Z := encodeStd !!! Z.to_nat (Z.land b 31).

(** The eight 5-bit groups unpacked from a quantum; absent source bytes
    leave their bits zero, as the fall-through [switch] does. *)
Definition quantum (s0 s1 s2 s3 s4 : Z) : list Z :=
  [ s0 ≫ 3;
    Z.lor (Z.land (s0 ≪ 2) 0x1F) (Z.land (s1 ≫ 6) 0x1F);
    Z.land (s1 ≫ 1) 0x1F;
    Z.lor (Z.land (s1 ≪ 4) 0x1F) (Z.land (s2 ≫ 4) 0x1F);
    Z.lor (Z.land (s2 ≪ 1) 0x1F) (s3 ≫ 7);
    Z.land (s3 ≫ 2) 0x1F;
    Z.lor (Z.land (s3 ≪ 3) 0x1F) (s4 ≫ 5);
    Z.land s4 0x1F ].

(** [EncodedLen] without padding. *)
Definition EncodedLen (n : nat) : nat := ((n * 8 + 4) / 5)%nat.

(** [Encode] with [NoPadding]: full quanta give eight characters, the
    last partial quantum as many as the destination still holds. *)
Fixpoint Encode (src : bytes) : gostring :=
  match src with
  | [] => []
  | [s0] => take 2 (enc <$> quantum s0 0 0 0 0)
  | [s0; s1] => take 4 (enc <$> quantum s0 s1 0 0 0)
  | [s0; s1; s2] => take 5 (enc <$> quantum s0 s1 s2 0 0)
  | [s0; s1; s2; s3] => take 7 (enc <$> quantum s0 s1 s2 s3 0)
  | s0 :: s1 :: s2 :: s3 :: s4 :: src' =>
      (enc <$> quantum s0 s1 s2 s3 s4) ++ Encode src'
  end.

(** [StdEncoding.WithPadding(NoPadding).EncodeToString]. *)
Definition EncodeToString (src : bytes) : gostring := Encode src.

End base32.

(** ** unicode/utf8 as the runtime uses it for strings *)

Module utf8.

Definition RuneError : Z := 0xFFFD.
Definition RuneSelf : Z := 0x80.
Definition MaxRune : Z := 0x10FFFF.

Definition cont (b : Z) : bool := bool_decide (0x80 ≤ b ≤ 0xBF).

(** [decoderune] of the runtime: the rune at the head of [s] and the
    number of bytes it takes; a malformed sequence gives [RuneError] and
    one byte. *)
Definition decoderune (s : bytes) : Z * nat :=
  let s0 := s !!! 0%nat in
  let s1 := s !!! 1%nat in
  let s2 := s !!! 2%nat in
  let s3 := s !!! 3%nat in
  if bool_decide (0xC0 ≤ s0 < 0xE0) then
    let r := Z.lor (Z.land s0 0x1F ≪ 6) (Z.land s1 0x3F) in
    if bool_decide (1 < length s)%nat && cont s1 && bool_decide (0x7F < r)
    then (r, 2%nat) else (RuneError, 1%nat)
  else if bool_decide (0xE0 ≤ s0 < 0xF0) then
    let r := Z.lor (Z.lor (Z.land s0 0x0F ≪ 12) (Z.land s1 0x3F ≪ 6))
                   (Z.land s2 0x3F) in
    if bool_decide (2 < length s)%nat && cont s1 && cont s2 &&
       bool_decide (0x7FF < r) && negb (bool_decide (0xD800 ≤ r ≤ 0xDFFF))
    then (r, 3%nat) else (RuneError, 1%nat)
  else if bool_decide (0xF0 ≤ s0 < 0xF8) then
    let r := Z.lor (Z.lor (Z.lor (Z.land s0 0x07 ≪ 18) (Z.land s1 0x3F ≪ 12))
                          (Z.land s2 0x3F ≪ 6)) (Z.land s3 0x3F) in
    if bool_decide (3 < length s)%nat && cont s1 && cont s2 && cont s3 &&
       bool_decide (0xFFFF < r) && bool_decide (r ≤ MaxRune)
    then (r, 4%nat) else (RuneError, 1%nat)
  else (RuneError, 1%nat).

(** The runes a [for _, r := range s] loop visits: a byte below
    [RuneSelf] is its own rune, anything else goes through [decoderune]. *)
Fixpoint runes (fuel : nat) (s : bytes) : list Z :=
  match fuel, s with
  | S fuel', c :: s' =>
      if bool_decide (c < RuneSelf) then c :: runes fuel' s'
      else let '(r, n) := decoderune s in r :: runes fuel' (drop n s)
  | _, _ => []
  end.

Definition range (s : gostring) : list Z := runes (length s) s.

(** [encoderune]: the bytes of one rune; surrogates and values beyond
    [MaxRune] are written as [RuneError]. *)
Definition encoderune (r : Z) : bytes :=
  let i := uint32 r in
  if bool_decide (i ≤ 0x7F) then [byte r]
  else if bool_decide (i ≤ 0x7FF) then
    [Z.lor 0xC0 (byte (r ≫ 6)); Z.lor 0x80 (Z.land (byte r) 0x3F)]
  else if bool_decide (MaxRune < i) || bool_decide (0xD800 ≤ i ≤ 0xDFFF) then
    [0xEF; 0xBF; 0xBD]
  else if bool_decide (i ≤ 0xFFFF) then
    [Z.lor 0xE0 (byte (r ≫ 12)); Z.lor 0x80 (Z.land (byte (r ≫ 6)) 0x3F);
     Z.lor 0x80 (Z.land (byte r) 0x3F)]
  else
    [Z.lor 0xF0 (byte (r ≫ 18)); Z.lor 0x80 (Z.land (byte (r ≫ 12)) 0x3F);
     Z.lor 0x80 (Z.land (byte (r ≫ 6)) 0x3F); Z.lor 0x80 (Z.land (byte r) 0x3F)].

(** The conversion [string(rs)] of a rune slice. *)
Definition string_of_runes (rs : list Z) : gostring := rs ≫= encoderune.

End utf8.

(** ** strings *)

Module strings.

Section ToLower.

(** [strings.Map(unicode.ToLower, s)], the path [ToLower] takes for a
    string that is not ASCII; it depends on the Unicode tables, which
    stay a parameter. *)
Variable mapLower : gostring → gostring.

Definition lower (c : Z) : Z :=
  if bool_decide (chr "A" ≤ c ≤ chr "Z") then c + (chr "a" - chr "A") else c.

Definition isASCII (s : gostring) : bool :=
  forallb (fun c => bool_decide (c < utf8.RuneSelf)) s.

Definition hasUpper (s : gostring) : bool :=
  existsb (fun c => bool_decide (chr "A" ≤ c ≤ chr "Z")) s.

(** [strings.ToLower]. *)
Definition ToLower (s : gostring) : gostring :=
  if isASCII s then (if hasUpper s then lower <$> s else s)
  else mapLower s.

End ToLower.

(** [strings.Join]. *)
Definition Join (elems : list gostring) (sep : gostring) : gostring :=
  match elems with
  | [] => []
  | e :: elems' => e ++ (elems' ≫= fun s => sep ++ s)
  end.

End strings.

(** Go's [error] values, by their message. *)
Definition error := string.

(** ** encoding/asn1, the encoder *)

Module asn1.

Definition TagBitString : Z := 3.
Definition TagOID : Z := 6.
Definition TagSequence : Z := 16.

(** The values [Marshal] meets in this program: the reflection over a Go
    value gives an object identifier, a bit string or a struct. *)
Inductive value :=
| ObjectIdentifier (oid : list Z)
| BitString (Bytes : bytes) (BitLength : Z)
| Struct (fields : list value).

(** [for i := n; i > 0; i >>= 7 { l++ }]; an [int64] has at most ten
    groups of seven bits. *)
Fixpoint base128IntLength_loop (fuel : nat) (i l : Z) : Z :=
  match fuel with
  | O => l
  | S fuel' => if bool_decide (0 < i)
               then base128IntLength_loop fuel' (i ≫ 7) (l + 1) else l
  end.

Definition base128IntLength (n : Z) : Z :=
  if bool_decide (n = 0) then 1 else base128IntLength_loop 10 n 0.

(** [appendBase128Int]: the groups from the most significant one, the
    continuation bit set on all but the last. *)
Definition appendBase128Int (dst : bytes) (n : Z) : bytes :=
  let l := base128IntLength n in
  dst ++ ((fun i => let o := Z.land (byte (n ≫ (i * 7))) 0x7f in
                    if bool_decide (i ≠ 0) then Z.lor o 0x80 else o)
          <$> reverse (seqZ 0 l)).

(** [lengthLength]; a length of 64 bits has at most eight bytes. *)
Fixpoint lengthLength_loop (fuel : nat) (i numBytes : Z) : Z :=
  match fuel with
  | O => numBytes
  | S fuel' => if bool_decide (255 < i)
               then lengthLength_loop fuel' (i ≫ 8) (numBytes + 1) else numBytes
  end.

Definition lengthLength (i : Z) : Z := lengthLength_loop 8 i 1.

Definition appendLength (dst : bytes) (i : Z) : bytes :=
  dst ++ ((fun n => byte (i ≫ ((n - 1) * 8))) <$> reverse (seqZ 1 (lengthLength i))).

(** [appendTagAndLength] for the universal class. *)
Definition appendTagAndLength (dst : bytes) (tag length : Z) (isCompound : bool)
  : bytes :=
  let b := if isCompound then 0x20 else 0 in
  let dst := if bool_decide (31 ≤ tag)
             then appendBase128Int (dst ++ [Z.lor b 0x1f]) tag
             else dst ++ [Z.lor b tag] in
  if bool_decide (128 ≤ length)
  then appendLength (dst ++ [Z.lor 0x80 (byte (lengthLength length))]) length
  else dst ++ [byte length].

(** [makeObjectIdentifier] and the bytes its encoder writes. *)
Definition makeObjectIdentifier (oid : list Z) : error + bytes :=
  match oid with
  | o0 :: o1 :: oid' =>
      if bool_decide (2 < o0) || (bool_decide (o0 < 2) && bool_decide (40 ≤ o1))
      then inl "asn1: structure error: invalid object identifier"
      else inr (foldl appendBase128Int (appendBase128Int [] (o0 * 40 + o1)) oid')
  | _ => inl "asn1: structure error: invalid object identifier"
  end.

(** The body of a bit string: the number of padding bits, then the bytes. *)
Definition bitStringEncoder (Bytes : bytes) (BitLength : Z) : bytes :=
  byte (Z.rem (8 - Z.rem BitLength 8) 8) :: Bytes.

(** [makeField]: tag, length and body of a value; the fields of a struct
    are encoded in order and wrapped in a SEQUENCE. *)
Fixpoint makeField (v : value) : error + bytes :=
  match v with
  | ObjectIdentifier oid =>
      match makeObjectIdentifier oid with
      | inl err => inl err
      | inr body =>
          inr (appendTagAndLength [] TagOID (Z.of_nat (length body)) false ++ body)
      end
  | BitString bs bl =>
      let body := bitStringEncoder bs bl in
      inr (appendTagAndLength [] TagBitString (Z.of_nat (length body)) false ++ body)
  | Struct fields =>
      let body :=
        (fix makeBody (fs : list value) : error + bytes :=
           match fs with
           | [] => inr []
           | f :: fs' =>
               match makeField f with
               | inl err => inl err
               | inr b => match makeBody fs' with
                          | inl err => inl err
                          | inr bs => inr (b ++ bs)
                          end
               end
           end) fields in
      match body with
      | inl err => inl err
      | inr body =>
          inr (appendTagAndLength [] TagSequence (Z.of_nat (length body)) true ++ body)
      end
  end.

(** [asn1.Marshal], as the pair [([]byte, error)] it returns. *)
Definition Marshal (v : value) : bytes * option error :=
  match makeField v with
  | inl err => ([], Some err)
  | inr b => (b, None)
  end.

End asn1.

(** ** math/big, crypto/elliptic and btcec *)

Module big.

(** [x.FillBytes(buf)] on a buffer of [n] bytes: the magnitude of [x],
    big-endian and zero-extended; it panics when the value does not fit. *)
Definition FillBytes (x : Z) (n : nat) : option bytes :=
  if bool_decide (Z.abs x < 2 ^ (8 * Z.of_nat n))
  then Some ((fun k => byte (Z.abs x ≫ (8 * Z.of_nat k))) <$> reverse (seq 0 n))
  else None.

End big.

Module elliptic.

(** What [Marshal] uses of a [Curve]: the size of its field and its
    membership test. *)
Record Curve := {
  P : Z;
  B : Z;
  BitSize : Z;
  IsOnCurve : Z → Z → bool
}.

(** [panicIfNotOnCurve]: the pair (0, 0) stands for the point at infinity
    and passes. *)
Definition panicIfNotOnCurve (curve : Curve) (x y : Z) : option unit :=
  if bool_decide (x = 0) && bool_decide (y = 0) then Some ()
  else if IsOnCurve curve x y then Some () else None.

(** [elliptic.Marshal]: the uncompressed form of a point. *)
Definition Marshal (curve : Curve) (x y : Z) : option bytes :=
  _ ← panicIfNotOnCurve curve x y;
  let byteLen := Z.to_nat ((BitSize curve + 7) / 8) in
  xs ← big.FillBytes x byteLen;
  ys ← big.FillBytes y byteLen;
  Some (4 :: xs ++ ys).

End elliptic.

Module btcec.

Definition fieldPrime : Z :=
  0xFFFFFFFFFFFFFFFFFFFFFFFFFFFFFFFFFFFFFFFFFFFFFFFFFFFFFFFEFFFFFC2F.

(** [KoblitzCurve.IsOnCurve]: [y^2 = x^3 + 7] in the field, on the field
    values built from the magnitudes of [x] and [y]. *)
Definition IsOnCurve (x y : Z) : bool :=
  bool_decide ((Z.abs y * Z.abs y) mod fieldPrime
               = (Z.abs x * Z.abs x * Z.abs x + 7) mod fieldPrime).

(** [btcec.S256()]. *)
Definition S256 : elliptic.Curve :=
  {| elliptic.P := fieldPrime; elliptic.B := 7; elliptic.BitSize := 256;
     elliptic.IsOnCurve := IsOnCurve |}.

(** [btcec.PublicKey], an [ecdsa.PublicKey]: a curve and a point. *)
Record PublicKey := { Curve : elliptic.Curve; X : Z; Y : Z }.

(** [pubKey.ToECDSA()] is a conversion of the pointer. *)
Definition ToECDSA (pubKey : PublicKey) : PublicKey := pubKey.

End btcec.

(** ** The program: [main.go] *)

Module main.

(** A [for _, r := range] loop whose body may panic. *)
Fixpoint for_range {S A : Type} (body : S → A → option S) (st : S) (l : list A)
  : option S :=
  match l with
  | [] => Some st
  | x :: l' => st' ← body st x; for_range body st' l'
  end.

(** The state of the loop of [SplitN]: the chunks appended so far, the
    shared rune buffer, and the write position in it. *)
Record split_state := SplitState {
  chunks : list gostring;
  chunk : list Z;
  pos : Z
}.

(** The body of the loop of [SplitN]; the store [chunk[i] = r] panics
    outside the buffer. *)
Definition SplitN_body (n : Z) (st : split_state) (r : Z) : option split_state :=
  let '(SplitState chunks chunk i) := st in
  if bool_decide (0 ≤ i < Z.of_nat (length chunk)) then
    let chunk := <[Z.to_nat i := r]> chunk in
    let i := i + 1 in
    if bool_decide (i = n)
    then Some (SplitState (chunks ++ [utf8.string_of_runes chunk]) chunk 0)
    else Some (SplitState chunks chunk i)
  else None.

Definition SplitN (s : gostring) (n : Z) : option (list gostring) :=
  if bool_decide (Z.of_nat (length s) ≤ n) then Some [s]
  else if bool_decide (n < 0) then None (* make([]rune, n) *)
  else
    '(SplitState chunks chunk i) ←
      for_range (SplitN_body n) (SplitState [] (replicate (Z.to_nat n) 0) 0)
                (utf8.range s);
    if bool_decide (0 < i)
    then Some (chunks ++ [utf8.string_of_runes (take (Z.to_nat i) chunk)])
    else Some chunks.


Record ECPubKeyMetadata := {
  ECPubKeyOID : list Z;
  NamedCurveOID : list Z
}.

Record BitString := { Bytes : bytes; BitLength : Z }.

Record ECPubKey := {
  Metadata : ECPubKeyMetadata;
  PublicKey : BitString
}.

(** What the reflection of [asn1.Marshal] sees of an [ECPubKey]. *)
Definition reflect (v : ECPubKey) : asn1.value :=
  asn1.Struct
    [asn1.Struct [asn1.ObjectIdentifier (ECPubKeyOID (Metadata v));
                  asn1.ObjectIdentifier (NamedCurveOID (Metadata v))];
     asn1.BitString (Bytes (PublicKey v)) (BitLength (PublicKey v))].

Definition SECP256K1 : list Z := [1; 3; 132; 0; 10].

Definition EncodeECPubKey (pubKey : btcec.PublicKey) : option (bytes * option error) :=
  let curve := btcec.S256 in
  let point := btcec.ToECDSA pubKey in
  bs ← elliptic.Marshal curve (btcec.X point) (btcec.Y point);
  Some (asn1.Marshal (reflect
    {| Metadata := {| ECPubKeyOID := [1; 2; 840; 10045; 2; 1];
                      NamedCurveOID := SECP256K1 |};
       PublicKey := {| Bytes := bs; BitLength := 0 |} |})).

Section Program.

(** What [strings.ToLower] does to strings that are not ASCII. *)
Variable mapLower : gostring → gostring.

Definition SelfAuthenticating (der : bytes) : option gostring :=
  let digest := sha256.Sum224 der in
  let tag := [2] in
  let data := digest ++ tag in
  let crc := binary.BigEndian_PutUint32 (crc32.ChecksumIEEE data) in
  let s := base32.EncodeToString (crc ++ data) in
  parts ← SplitN (strings.ToLower mapLower s) 5;
  Some (strings.Join parts (str "-")).

Definition ECPubKeyToPrincipal (pubKey : btcec.PublicKey)
  : option (gostring * option error) :=
  '(der, err) ← EncodeECPubKey pubKey;
  match err with
  | Some err => Some ([], Some err)
  | None => principal ← SelfAuthenticating der; Some (principal, None)
  end.

(** The key-derivation package [hdkeychain]: extended keys, the
    derivation of the child at a 32-bit index, and the public key of an
    extended key. *)
Variable ExtendedKey : Type.
Variable Child : ExtendedKey → Z → error + ExtendedKey.
Variable ExtendedKey_ECPubKey : ExtendedKey → error + btcec.PublicKey.

(** The body of the loop of [generate]: the next result slice, or the
    pair the function returns at once. *)
Definition generate_body (masterXPubKey0 : ExtendedKey)
    (result : list gostring) (i : Z)
  : option (list gostring + list gostring * option error) :=
  match Child masterXPubKey0 (uint32 i) with
  | inl err => Some (inr ([], Some err))
  | inr childXPubKey =>
      match ExtendedKey_ECPubKey childXPubKey with
      | inl err => Some (inr ([], Some err))
      | inr pubKey =>
          '(principal, err) ← ECPubKeyToPrincipal pubKey;
          match err with
          | Some err => Some (inr ([], Some err))
          | None => Some (inl (result ++ [principal]))
          end
      end
  end.

(** A counting loop [for i := ...] whose body may return from the
    function ([inr]) or panic ([None]). *)
Fixpoint for_loop {S R : Type} (body : S → Z → option (S + R)) (st : S)
    (l : list Z) : option (S + R) :=
  match l with
  | [] => Some (inl st)
  | i :: l' =>
      match body st i with
      | Some (inl st') => for_loop body st' l'
      | r => r
      end
  end.

Definition generate (masterXPubKey : ExtendedKey) (n : Z)
  : option (list gostring * option error) :=
  match Child masterXPubKey 0 with
  | inl err => Some ([], Some err)
  | inr masterXPubKey0 =>
      r ← for_loop (generate_body masterXPubKey0) [] (seqZ 0 n);
      match r with
      | inl result => Some (result, None)
      | inr ret => Some ret
      end
  end.

(** The two calls iteration [i] of the loop makes to the key-derivation
    package: the leaf child, then its public key. *)
Definition derive_leaf (masterXPubKey0 : ExtendedKey) (i : Z)
  : error + btcec.PublicKey :=
  match Child masterXPubKey0 (uint32 i) with
  | inl err => inl err
  | inr childXPubKey => ExtendedKey_ECPubKey childXPubKey
  end.

(** Iteration [i] runs to its end and appends [principal]. *)
Definition iteration_ok (masterXPubKey0 : ExtendedKey) (i : Z)
    (principal : gostring) : Prop :=
  ∃ pubKey, derive_leaf masterXPubKey0 i = inr pubKey ∧
            ECPubKeyToPrincipal pubKey = Some (principal, None).

(** The key-derivation package fails with [err] during the run of
    [generate masterXPubKey n]: on the intermediate child, or at a leaf
    that the loop reaches. *)
Definition collaborator_fails (masterXPubKey : ExtendedKey) (n : Z)
    (err : error) : Prop :=
  Child masterXPubKey 0 = inl err ∨
  ∃ masterXPubKey0 i,
    Child masterXPubKey 0 = inr masterXPubKey0 ∧ 0 ≤ i < n ∧
    (∀ j, 0 ≤ j < i → ∃ principal, iteration_ok masterXPubKey0 j principal) ∧
    derive_leaf masterXPubKey0 i = inl err.

(** Extended public keys cannot derive hardened children, those of
    index [2^31] and beyond. *)
Definition public_keys_only : Prop :=
  ∀ key i, 2 ^ 31 ≤ i → ∃ err, Child key i = inl err.

End Program.

(** What the process writes: the standard output and the standard error. *)
Record world := World { stdout : bytes; stderr : bytes }.

(** [fmt.Println(s)] on the standard output. *)
Definition Println (w : world) (s : gostring) : world :=
  World (stdout w ++ s ++ [chr "010"]) (stderr w).

Section Process.

Variable mapLower : gostring → gostring.
Variable ExtendedKey : Type.
Variable Child : ExtendedKey → Z → error + ExtendedKey.
Variable ExtendedKey_ECPubKey : ExtendedKey → error + btcec.PublicKey.

(** [hdkeychain.NewKeyFromString]. *)
Variable NewKeyFromString : gostring → error + ExtendedKey.

(** The text [flag.PrintDefaults] writes for the two flags. *)
Variable defaults : bytes.

Definition run (w : world) (argXPubKey : gostring) (argN : Z)
  : option (world * option error) :=
  match NewKeyFromString argXPubKey with
  | inl err => Some (w, Some err)
  | inr masterXPubKey =>
      '(principals, err) ←
        generate mapLower ExtendedKey Child ExtendedKey_ECPubKey masterXPubKey argN;
      match err with
      | Some err => Some (w, Some err)
      | None => Some (foldl Println w principals, None)
      end
  end.

(** [main] from the values [flag.Parse] leaves in the flags [xpub] and
    [n]: what the process has written when it ends, and its exit status. *)
Definition main (w : world) (argXPubKey : gostring) (argN : Z)
  : option (world * Z) :=
  if bool_decide (argXPubKey = []) then
    Some (World (stdout w) (stderr w ++ defaults), 1)
  else
    '(w, err) ← run w argXPubKey argN;
    match err with
    | Some err =>
        Some (World (stdout w) (stderr w ++ str "Error: " ++ str err ++ [chr "010"]), 1)
    | None => Some (w, 0)
    end.

End Process.

End main.

Import main.

(** ** Definitions used by the statements *)

(** Consecutive groups of [n] elements, the last one holding the
    remainder. *)
Fixpoint groups_fuel {A} (fuel n : nat) (s : list A) : list (list A) :=
  match fuel, s with
  | S fuel', _ :: _ => take n s :: groups_fuel fuel' n (drop n s)
  | _, _ => []
  end.

Definition groups {A} (n : nat) (s : list A) : list (list A) :=
  groups_fuel (length s) n s.

Definition ascii_char (c : Z) : Prop := 0 ≤ c < 128.

Definition hyphen : Z := chr "-".

(** The lower-case base-32 alphabet. *)
Definition base32_lower (c : Z) : Prop :=
  chr "a" ≤ c ≤ chr "z" ∨ chr "2" ≤ c ≤ chr "7".

(** What [SplitN] returns from the state its loop ends in. *)
Definition SplitN_finish (st : split_state) : list (list Z) :=
  if bool_decide (0 < pos st)
  then chunks st ++ [utf8.string_of_runes (take (Z.to_nat (pos st)) (chunk st))]
  else chunks st.

(** The lower-case base-32 text of a principal, before it is chunked. *)
Definition text (D : bytes) : gostring :=
  let data := sha256.Sum224 D ++ [2] in
  strings.lower <$>
    base32.EncodeToString (binary.BigEndian_PutUint32 (crc32.ChecksumIEEE data) ++ data).

(** The fingerprint encoder in the words of the specification (section
    4.3): digest, tag, checksum, text encoding, chunking. *)
Module Spec.

Definition big_endian4 (c : Z) : bytes :=
  [(c / 2 ^ 24) mod 256; (c / 2 ^ 16) mod 256; (c / 2 ^ 8) mod 256; c mod 256].

(** Base 32 without padding: the bits of the bytes, most significant
    first, are cut into groups of five, the last group completed with
    zero bits, and each group names a character of the alphabet. *)
Definition bits8 (b : Z) : list bool :=
  (λ k, Z.testbit b k) <$> [7; 6; 5; 4; 3; 2; 1; 0].

Definition number (bs : list bool) : Z :=
  foldl (λ acc (b : bool), 2 * acc + (if b then 1 else 0)) 0 bs.

Definition pad5 (g : list bool) : list bool :=
  g ++ replicate (5 - length g) false.

Definition alphabet : gostring := str "ABCDEFGHIJKLMNOPQRSTUVWXYZ234567".

Definition base32 (l : bytes) : gostring :=
  (λ g, alphabet !!! Z.to_nat (number (pad5 g))) <$> groups 5 (l ≫= bits8).

Definition lowercase (s : gostring) : gostring :=
  (λ c, if bool_decide (chr "A" ≤ c ≤ chr "Z") then c + 32 else c) <$> s.

Fixpoint hyphenate (gs : list gostring) : gostring :=
  match gs with
  | [] => []
  | [g] => g
  | g :: gs' => g ++ hyphen :: hyphenate gs'
  end.

Definition Principal (D : bytes) : gostring :=
  let digest := sha256.Sum224 D in
  let T := digest ++ [0x02] in
  let buf := big_endian4 (crc32.ChecksumIEEE T) ++ T in
  hyphenate (groups 5 (lowercase (base32 buf))).

End Spec.

(** A public key of secp256k1: coordinates in the field, on the curve. *)
Definition valid_point (pubKey : btcec.PublicKey) : Prop :=
  0 ≤ btcec.X pubKey < btcec.fieldPrime ∧
  0 ≤ btcec.Y pubKey < btcec.fieldPrime ∧
  (btcec.Y pubKey * btcec.Y pubKey) mod btcec.fieldPrime
  = (btcec.X pubKey * btcec.X pubKey * btcec.X pubKey + 7) mod btcec.fieldPrime.

(** The encoded public key in the words of the specification (sections
    4.1 and 4.2), with the distinguished encoding rules written out. *)
Module SpecDER.

(** A number in base 128, most significant digit first, every digit but
    the last with its high bit set. *)
Fixpoint base128_from (fuel : nat) (v : Z) (low : bytes) : bytes :=
  match fuel with
  | O => low
  | S fuel' => if bool_decide (v = 0) then low
               else base128_from fuel' (v / 128) ((128 + v mod 128) :: low)
  end.

Definition base128 (v : Z) : bytes := base128_from 10 (v / 128) [v mod 128].

(** The content of an object identifier: the first two arcs share a
    subidentifier. *)
Definition oid_content (arcs : list Z) : bytes :=
  match arcs with
  | a :: b :: arcs' => base128 (40 * a + b) ++ concat (base128 <$> arcs')
  | _ => []
  end.

(** Tag, length in the short form, content. *)
Definition tlv (tag : Z) (content : bytes) : bytes :=
  tag :: Z.of_nat (length content) :: content.

Definition SEQUENCE : Z := 0x30.
Definition OBJECT_IDENTIFIER : Z := 0x06.
Definition BIT_STRING : Z := 0x03.

(** A coordinate, big-endian and padded to 32 bytes. *)
Definition pad32 (v : Z) : bytes :=
  (λ k, (v / 2 ^ (8 * k)) mod 256) <$> reverse (seqZ 0 32).

(** The number a big-endian byte string denotes. *)
Definition be_value (l : bytes) : Z := foldl (λ acc b, 256 * acc + b) 0 l.

(** The uncompressed encoding of a point. *)
Definition uncompressed (x y : Z) : bytes := 0x04 :: pad32 x ++ pad32 y.

Definition EncodedPublicKeyRecord (x y : Z) : bytes :=
  tlv SEQUENCE
    (tlv SEQUENCE
       (tlv OBJECT_IDENTIFIER (oid_content [1; 2; 840; 10045; 2; 1]) ++
        tlv OBJECT_IDENTIFIER (oid_content [1; 3; 132; 0; 10])) ++
     tlv BIT_STRING (0 :: uncompressed x y)).

End SpecDER.

(** ** A small key-derivation package for the examples

    It has the failure modes of [hdkeychain] on extended public keys: no
    child beyond depth 255, no hardened child, and an index whose child is
    invalid.  The public key of a child is one of the first four multiples
    of the generator of secp256k1. *)
Module keychain.

Record ExtendedKey := {
  depth : Z;
  childNum : Z;
  (** the index at which derivation from this key and from its
      descendants is invalid; none when negative *)
  invalidChild : Z
}.

Definition ErrDeriveBeyondMaxDepth : error :=
  "cannot derive a key with more than 255 indices in its path".
Definition ErrDeriveHardFromPublic : error :=
  "cannot derive a hardened key from a public key".
Definition ErrInvalidChild : error :=
  "the extended key at this index is invalid".

Definition HardenedKeyStart : Z := 2 ^ 31.

Definition Child (k : ExtendedKey) (i : Z) : error + ExtendedKey :=
  if bool_decide (depth k = 255) then inl ErrDeriveBeyondMaxDepth
  else if bool_decide (HardenedKeyStart ≤ i) then inl ErrDeriveHardFromPublic
  else if bool_decide (i = invalidChild k) then inl ErrInvalidChild
  else inr {| depth := depth k + 1; childNum := i;
              invalidChild := invalidChild k |}.

Definition point (x y : Z) : btcec.PublicKey :=
  {| btcec.Curve := btcec.S256; btcec.X := x; btcec.Y := y |}.

Definition G1 : btcec.PublicKey :=
  point 0x79BE667EF9DCBBAC55A06295CE870B07029BFCDB2DCE28D959F2815B16F81798
        0x483ADA7726A3C4655DA4FBFC0E1108A8FD17B448A68554199C47D08FFB10D4B8.
Definition G2 : btcec.PublicKey :=
  point 0xC6047F9441ED7D6D3045406E95C07CD85C778E4B8CEF3CA7ABAC09B95C709EE5
        0x1AE168FEA63DC339A3C58419466CEAEEF7F632653266D0E1236431A950CFE52A.
Definition G3 : btcec.PublicKey :=
  point 0xF9308A019258C31049344F85F89D5229B531C845836F99B08601F113BCE036F9
        0x388F7B0F632DE8140FE337E62A37F3566500A99934C2231B6CB9FD7584B8E672.
Definition G4 : btcec.PublicKey :=
  point 0xE493DBF1C10D80F3581E4904930B1404CC6C13900EE0758474FA94ABE8C4CD13
        0x51ED993EA0D455B75642E2098EA51448D967AE33BFBDFE40CFE97BDC47739922.

Definition ECPubKey (k : ExtendedKey) : error + btcec.PublicKey :=
  inr (match childNum k mod 4 with
       | 0 => G1 | 1 => G2 | 2 => G3 | _ => G4
       end).

(** A root key, and roots whose derivations fail at index 0 and 1. *)
Definition master : ExtendedKey :=
  {| depth := 0; childNum := 0; invalidChild := -1 |}.
Definition master_invalid1 : ExtendedKey :=
  {| depth := 0; childNum := 0; invalidChild := 1 |}.

(** An extended public key of depth 255, the largest its serialization
    holds: no child of it can be derived. *)
Definition deepest : ExtendedKey :=
  {| depth := 255; childNum := 0; invalidChild := -1 |}.

(** The program run on this package; [strings.ToLower] never leaves the
    ASCII path here, so its other path is left as the identity. *)
Abbreviation generate := (main.generate id ExtendedKey Child ECPubKey).

Definition ErrInvalidKeyLen : error :=
  "the provided serialized extended key length is invalid".

(** The serialized keys this package reads. *)
Definition NewKeyFromString (s : gostring) : error + ExtendedKey :=
  if bool_decide (s = str "xpub/master") then inr master
  else if bool_decide (s = str "xpub/invalid1") then inr master_invalid1
  else if bool_decide (s = str "xpub/deepest") then inr deepest
  else inl ErrInvalidKeyLen.

Abbreviation run := (main.run id ExtendedKey Child ECPubKey NewKeyFromString).
Abbreviation main :=
  (main.main id ExtendedKey Child ECPubKey NewKeyFromString (str "usage")).

End keychain.

(** The principals of the first three multiples of the generator. *)
Definition p1 : gostring :=
  str "vh5jj-2v5av-uunuh-hbba5-pss3b-vrzng-7dqdp-xcku3-zj2tc-36shc-bqe".
Definition p2 : gostring :=
  str "jlh3r-r2oph-rldeg-n5jup-3jvyi-nko2u-t6dbg-hrudg-2tkvv-czrnu-pqe".
Definition p3 : gostring :=
  str "7lqrv-pmk5d-6brh6-btgw2-lwgl2-dzvup-bng6c-rokix-tucoi-g47mc-sae".

(** * Properties *)

(** ** Bytes, digests and base-32 text *)

Lemma byte_range x : 0 ≤ byte x < 256.
Proof.
  unfold byte. change 255 with (Z.ones 8). rewrite Z.land_ones by lia.
  apply Z.mod_pos_bound. lia.
Qed.

Lemma byte_id x : 0 ≤ x < 256 → byte x = x.
Proof.
  intros H. unfold byte. change 255 with (Z.ones 8).
  rewrite Z.land_ones by lia. apply Z.mod_small. lia.
Qed.

Lemma PutUint32_length v : length (binary.BigEndian_PutUint32 v) = 4%nat.
Proof. reflexivity. Qed.

Lemma PutUint32_bytes v : Forall (fun b => 0 ≤ b < 256) (binary.BigEndian_PutUint32 v).
Proof. repeat constructor; apply byte_range. Qed.

Lemma Sum224_length d : length (sha256.Sum224 d) = 28%nat.
Proof. unfold sha256.Sum224. by destruct (sha256.blockGeneric _ _ _). Qed.

Lemma Sum224_bytes d : Forall (fun b => 0 ≤ b < 256) (sha256.Sum224 d).
Proof.
  unfold sha256.Sum224. destruct (sha256.blockGeneric _ _ _).
  rewrite !Forall_app. repeat split; apply PutUint32_bytes.
Qed.

(** Induction on a byte string, five bytes (one quantum) at a time. *)
Lemma quantum_ind (P : list Z → Prop) :
  P [] → (∀ a, P [a]) → (∀ a b, P [a; b]) → (∀ a b c, P [a; b; c]) →
  (∀ a b c d, P [a; b; c; d]) →
  (∀ a b c d e l, P l → P (a :: b :: c :: d :: e :: l)) →
  ∀ l, P l.
Proof.
  intros H0 H1 H2 H3 H4 H5.
  fix IH 1. intros [|a [|b [|c [|d [|e l]]]]];
    [apply H0|apply H1|apply H2|apply H3|apply H4|apply H5, IH].
Qed.

Lemma Encode_length src :
  length (base32.Encode src) = base32.EncodedLen (length src).
Proof.
  induction src as [|a|a b|a b c|a b c d|a b c d e l IH] using quantum_ind;
    try reflexivity.
  change (base32.Encode (a :: b :: c :: d :: e :: l))
    with ((base32.enc <$> base32.quantum a b c d e) ++ base32.Encode l).
  rewrite length_app, IH. unfold base32.EncodedLen. simpl length.
  replace (S (S (S (S (S (length l))))) * 8 + 4)%nat
    with (8 * 5 + (length l * 8 + 4))%nat by lia.
  rewrite (Nat.add_comm (8 * 5)), Nat.div_add by lia. lia.
Qed.

Lemma enc_alphabet b : base32.enc b ∈ base32.encodeStd.
Proof.
  unfold base32.enc.
  assert (Z.to_nat (Z.land b 31) < length base32.encodeStd)%nat as Hlt.
  { change 31 with (Z.ones 5). rewrite Z.land_ones by lia.
    pose proof (Z.mod_pos_bound b (2 ^ 5)). change (length _) with 32%nat. lia. }
  apply list_elem_of_lookup. exists (Z.to_nat (Z.land b 31)).
  apply list_lookup_lookup_total_lt, Hlt.
Qed.

Lemma Encode_alphabet src : Forall (fun c => c ∈ base32.encodeStd) (base32.Encode src).
Proof.
  induction src as [|a|a b|a b c|a b c d|a b c d e l IH] using quantum_ind;
    try (cbv [base32.Encode base32.quantum]; cbn [fmap list_fmap take];
         repeat (apply Forall_cons; split; [apply enc_alphabet|]); apply Forall_nil_2).
  change (base32.Encode (a :: b :: c :: d :: e :: l))
    with ((base32.enc <$> base32.quantum a b c d e) ++ base32.Encode l).
  apply Forall_app; split; [|done].
  cbv [base32.quantum]; cbn [fmap list_fmap].
  repeat (apply Forall_cons; split; [apply enc_alphabet|]); apply Forall_nil_2.
Qed.

(** ** Groups of [n] elements *)

Section groups.
Context {A : Type}.
Implicit Types s a : list A.

Lemma groups_fuel_ge n s fuel :
  (0 < n)%nat → (length s ≤ fuel)%nat → groups_fuel fuel n s = groups n s.
Proof.
  intros Hn. unfold groups.
  remember (length s) as k eqn:Hk.
  revert s fuel Hk. induction (lt_wf k) as [k _ IH]. intros s fuel -> Hle.
  destruct s as [|c s]; [by destruct fuel|].
  destruct fuel as [|fuel]; [simpl in Hle; lia|].
  cbn [length groups_fuel]. f_equal.
  assert (length (drop n (c :: s)) < length (c :: s))%nat as Hlt.
  { rewrite length_drop. simpl. lia. }
  rewrite (IH _ Hlt (drop n (c :: s)) fuel eq_refl) by (simpl in *; lia).
  rewrite (IH _ Hlt (drop n (c :: s)) (length s) eq_refl) by (simpl in *; lia).
  done.
Qed.

Lemma groups_nil n : groups n ([] : list A) = [].
Proof. done. Qed.

Lemma groups_cons n s :
  (0 < n)%nat → s ≠ [] → groups n s = take n s :: groups n (drop n s).
Proof.
  intros Hn Hs. destruct s as [|c s]; [done|].
  unfold groups at 1. cbn [length groups_fuel]. f_equal.
  apply groups_fuel_ge; [done|]. rewrite length_drop. simpl. lia.
Qed.

Lemma groups_app_full n a s :
  (0 < n)%nat → length a = n → groups n (a ++ s) = a :: groups n s.
Proof.
  intros Hn Ha. rewrite groups_cons; [|done|].
  - by rewrite take_app_length', drop_app_length'.
  - destruct a; simpl in *; [lia|done].
Qed.

Lemma groups_short n a :
  a ≠ [] → (length a ≤ n)%nat → groups n a = [a].
Proof.
  intros Ha Hle. destruct a as [|c a]; [done|].
  rewrite groups_cons; [|simpl in Hle; lia|done].
  by rewrite take_ge, drop_ge by lia.
Qed.

Lemma concat_groups n s : (0 < n)%nat → concat (groups n s) = s.
Proof.
  intros Hn. remember (length s) as k eqn:Hk.
  revert s Hk. induction (lt_wf k) as [k _ IH]. intros s ->.
  destruct s as [|c s]; [done|].
  rewrite groups_cons by done. cbn [concat].
  rewrite (IH (length (drop n (c :: s)))); [apply take_drop| |done].
  rewrite length_drop. simpl. lia.
Qed.

Lemma Forall_groups (P : A → Prop) n s :
  (0 < n)%nat → Forall P s → Forall (Forall P) (groups n s).
Proof.
  intros Hn. remember (length s) as k eqn:Hk.
  revert s Hk. induction (lt_wf k) as [k _ IH]. intros s -> HP.
  destruct s as [|c s]; [constructor|].
  rewrite groups_cons by done. constructor.
  - by apply Forall_take.
  - apply (IH (length (drop n (c :: s)))); [|done|by apply Forall_drop].
    rewrite length_drop. simpl. lia.
Qed.

Lemma length_groups n s :
  (0 < n)%nat → length (groups n s) = ((length s + n - 1) / n)%nat.
Proof.
  intros Hn. remember (length s) as k eqn:Hk.
  revert s Hk. induction (lt_wf k) as [k _ IH]. intros s ->.
  destruct s as [|c s].
  { simpl. symmetry. apply Nat.div_small. lia. }
  rewrite groups_cons by done. cbn [length].
  rewrite (IH (length (drop n (c :: s)))); [| |done].
  2:{ rewrite length_drop. simpl. lia. }
  rewrite length_drop. simpl length.
  destruct (decide (S (length s) ≤ n)%nat) as [Hle|Hgt].
  - replace (S (length s) - n)%nat with 0%nat by lia.
    rewrite (Nat.div_small (0 + n - 1)) by lia.
    assert ((S (length s) + n - 1) / n = 1)%nat; [|lia].
    replace (S (length s) + n - 1)%nat with (1 * n + length s)%nat by lia.
    rewrite Nat.div_add_l by lia. rewrite Nat.div_small by lia. done.
  - replace (S (length s) + n - 1)%nat with (1 * n + (S (length s) - n + n - 1))%nat by lia.
    rewrite Nat.div_add_l by lia. lia.
Qed.

Lemma groups_app_multiple n k a s :
  (0 < n)%nat → length a = (k * n)%nat → groups n (a ++ s) = groups n a ++ groups n s.
Proof.
  intros Hn. revert a. induction k as [|k IH]; intros a Ha.
  - by destruct a.
  - assert (length (take n a) = n) as H1 by (rewrite length_take; lia).
    assert (length (drop n a) = (k * n)%nat) as H2 by (rewrite length_drop; lia).
    rewrite <-(take_drop n a). generalize dependent (take n a).
    generalize dependent (drop n a). clear Ha a. intros a2 Ha2 a1 Ha1.
    rewrite <-app_assoc, (groups_app_full n a1 (a2 ++ s)) by done.
    rewrite (groups_app_full n a1 a2) by done.
    by rewrite IH by done.
Qed.

End groups.

(** ** The base-32 encoder against the bit-stream definition *)

Lemma number5 v :
  Z.land v 31
  = Spec.number [Z.testbit v 4; Z.testbit v 3; Z.testbit v 2; Z.testbit v 1; Z.testbit v 0].
Proof.
  change 31 with (Z.ones 5). rewrite Z.land_ones by lia.
  unfold Spec.number. cbn [foldl].
  assert (∀ k, 0 ≤ k → (if Z.testbit v k then 1 else 0) = (v / 2 ^ k) mod 2) as Hbit.
  { intros k Hk. rewrite <-Z.testbit_spec' by done. by destruct (Z.testbit v k). }
  rewrite !Hbit by lia. change (2 ^ 5) with 32. change (2 ^ 4) with 16.
  change (2 ^ 3) with 8. change (2 ^ 2) with 4. change (2 ^ 1) with 2.
  change (2 ^ 0) with 1. rewrite Z.div_1_r. Z.div_mod_to_equations. lia.
Qed.

Lemma land31_bits v l :
  [Z.testbit v 4; Z.testbit v 3; Z.testbit v 2; Z.testbit v 1; Z.testbit v 0] = l →
  Z.land v 31 = Spec.number l.
Proof. intros <-. apply number5. Qed.

Lemma byte_testbit_high b k : 0 ≤ b < 256 → 8 ≤ k → Z.testbit b k = false.
Proof.
  intros Hb Hk. destruct (decide (b = 0)) as [->|]; [apply Z.bits_0|].
  apply Z.bits_above_log2; [lia|].
  assert (Z.log2 b < 8); [|lia]. apply Z.log2_lt_pow2; lia.
Qed.

(** A bit of a combination of shifts, masks by 31 and unions of bytes. *)
Ltac bits :=
  repeat first
    [ rewrite Z.lor_spec | rewrite Z.land_spec
    | rewrite Z.shiftl_spec by lia | rewrite Z.shiftr_spec by lia ];
  repeat match goal with
    | |- context [Z.testbit _ (?m - ?n)] =>
        let v := eval compute in (m - n) in change (m - n) with v
    | |- context [Z.testbit _ (?m + ?n)] =>
        let v := eval compute in (m + n) in change (m + n) with v
    end;
  repeat match goal with
    | H : 0 ≤ ?x < 256 |- context [Z.testbit ?x ?k] =>
        rewrite (byte_testbit_high x k H) by lia
    end;
  rewrite ?Z.testbit_neg_r by lia; rewrite ?Z.bits_0;
  change (Z.testbit 31 4) with true; change (Z.testbit 31 3) with true;
  change (Z.testbit 31 2) with true; change (Z.testbit 31 1) with true;
  change (Z.testbit 31 0) with true;
  rewrite ?andb_true_r, ?orb_false_r, ?orb_false_l, ?andb_false_l;
  try reflexivity.

(** The eight groups of a quantum are the eight groups of five bits of
    its forty bits. *)
Lemma quantum_number a b c d e :
  0 ≤ a < 256 → 0 ≤ b < 256 → 0 ≤ c < 256 → 0 ≤ d < 256 → 0 ≤ e < 256 →
  (λ v, Z.land v 31) <$> base32.quantum a b c d e
  = Spec.number <$>
      groups 5 (Spec.bits8 a ++ Spec.bits8 b ++ Spec.bits8 c ++
                Spec.bits8 d ++ Spec.bits8 e).
Proof.
  intros Ha Hb Hc Hd He.
  unfold base32.quantum, Spec.bits8.
  cbn [fmap list_fmap app groups groups_fuel length take drop].
  repeat (apply (f_equal2 cons);
          [apply land31_bits; repeat (apply (f_equal2 cons); [bits|]); try done|]).
  done.
Qed.

Lemma enc_fmap (q : list Z) :
  base32.enc <$> q
  = (λ v, base32.encodeStd !!! Z.to_nat v) <$> ((λ v, Z.land v 31) <$> q).
Proof. by rewrite <-list_fmap_compose. Qed.

(** On bytes, [base32.Encode] is base 32 as the standard defines it. *)
Lemma Encode_rfc4648 l :
  Forall (λ b, 0 ≤ b < 256) l → base32.Encode l = Spec.base32 l.
Proof.
  induction l as [|a|a b|a b c|a b c d|a b c d e l IH] using quantum_ind; intros Hl.
  - done.
  - apply Forall_cons in Hl as [Ha _].
    cbv [base32.Encode]. rewrite enc_fmap, quantum_number by lia. reflexivity.
  - apply Forall_cons in Hl as [Ha [Hb _]%Forall_cons].
    cbv [base32.Encode]. rewrite enc_fmap, quantum_number by lia. reflexivity.
  - apply Forall_cons in Hl as [Ha [Hb [Hc _]%Forall_cons]%Forall_cons].
    cbv [base32.Encode]. rewrite enc_fmap, quantum_number by lia. reflexivity.
  - apply Forall_cons in Hl as [Ha [Hb [Hc [Hd _]%Forall_cons]%Forall_cons]%Forall_cons].
    cbv [base32.Encode]. rewrite enc_fmap, quantum_number by lia. reflexivity.
  - apply Forall_cons in Hl
      as [Ha [Hb [Hc [Hd [He Hl]%Forall_cons]%Forall_cons]%Forall_cons]%Forall_cons].
    change (base32.Encode (a :: b :: c :: d :: e :: l))
      with ((base32.enc <$> base32.quantum a b c d e) ++ base32.Encode l).
    rewrite IH by done. rewrite enc_fmap, quantum_number by lia.
    unfold Spec.base32.
    change ((a :: b :: c :: d :: e :: l) ≫= Spec.bits8)
      with ((Spec.bits8 a ++ Spec.bits8 b ++ Spec.bits8 c ++
             Spec.bits8 d ++ Spec.bits8 e) ++ (l ≫= Spec.bits8)).
    rewrite (groups_app_multiple 5 8
               (Spec.bits8 a ++ Spec.bits8 b ++ Spec.bits8 c ++
                Spec.bits8 d ++ Spec.bits8 e) (l ≫= Spec.bits8))
      by (lia || reflexivity).
    rewrite fmap_app. f_equal.
Qed.

(** ** Runes of ASCII text *)

Lemma runes_ascii s fuel :
  Forall ascii_char s → (length s ≤ fuel)%nat → utf8.runes fuel s = s.
Proof.
  intros Hs. revert fuel. induction Hs as [|c s Hc Hs IH]; intros fuel Hle.
  { by destruct fuel. }
  destruct fuel as [|fuel]; [simpl in Hle; lia|].
  cbn [utf8.runes]. unfold ascii_char, utf8.RuneSelf in *.
  rewrite bool_decide_true by lia. f_equal. apply IH. simpl in Hle. lia.
Qed.

Lemma range_ascii s : Forall ascii_char s → utf8.range s = s.
Proof. intros. by apply runes_ascii. Qed.

Lemma encoderune_ascii r : ascii_char r → utf8.encoderune r = [r].
Proof.
  intros Hr. unfold ascii_char in Hr. unfold utf8.encoderune, uint32.
  rewrite Z.mod_small by lia. rewrite bool_decide_true by lia.
  by rewrite byte_id by lia.
Qed.

Lemma string_of_runes_ascii rs :
  Forall ascii_char rs → utf8.string_of_runes rs = rs.
Proof.
  unfold utf8.string_of_runes. induction 1 as [|r rs Hr Hrs IH]; [done|].
  cbn [mbind list_bind]. change (mbind utf8.encoderune rs) with (rs ≫= utf8.encoderune).
  by rewrite IH, encoderune_ascii.
Qed.

(** ** [SplitN] on ASCII text *)

Lemma SplitN_body_in n cs buf i r :
  0 ≤ i < Z.of_nat (length buf) →
  SplitN_body n (SplitState cs buf i) r =
    Some (if bool_decide (i + 1 = n)
          then SplitState (cs ++ [utf8.string_of_runes (<[Z.to_nat i:=r]> buf)])
                          (<[Z.to_nat i:=r]> buf) 0
          else SplitState cs (<[Z.to_nat i:=r]> buf) (i + 1)).
Proof.
  intros Hi. unfold SplitN_body. rewrite bool_decide_true by done.
  by case_bool_decide.
Qed.

Lemma SplitN_loop n rs :
  0 < n → Forall ascii_char rs →
  ∀ cs buf pend,
    length buf = Z.to_nat n → (length pend < Z.to_nat n)%nat →
    take (length pend) buf = pend → Forall ascii_char pend →
    ∃ st, for_range (SplitN_body n) (SplitState cs buf (Z.of_nat (length pend))) rs
          = Some st
          ∧ SplitN_finish st = cs ++ groups (Z.to_nat n) (pend ++ rs).
Proof.
  intros Hn Hrs. induction Hrs as [|r rs Hr Hrs IH]; intros cs buf pend Hbuf Hlt Htake Hpend.
  - eexists; split; [done|]. unfold SplitN_finish. cbn [pos chunks chunk].
    rewrite app_nil_r. destruct pend as [|c pend].
    + by rewrite bool_decide_false, groups_nil, app_nil_r by (simpl; lia).
    + rewrite bool_decide_true by (simpl; lia).
      rewrite Nat2Z.id, Htake, string_of_runes_ascii by done.
      rewrite groups_short; [done..|lia].
  - cbn [for_range]. rewrite SplitN_body_in by lia. rewrite Nat2Z.id.
    assert (take (S (length pend)) (<[length pend:=r]> buf) = pend ++ [r]) as Htake'.
    { rewrite (take_S_r _ _ r).
      - by rewrite take_insert_ge, Htake by lia.
      - apply list_lookup_insert_eq. lia. }
    replace (pend ++ r :: rs) with ((pend ++ [r]) ++ rs) by by rewrite <-app_assoc.
    destruct (decide (Z.of_nat (length pend) + 1 = n)) as [Heq|Hne].
    + rewrite bool_decide_true by done. cbn [mbind option_bind].
      assert (<[length pend:=r]> buf = pend ++ [r]) as Hfull.
      { rewrite <-Htake'. symmetry. apply take_ge. rewrite length_insert. lia. }
      rewrite Hfull, string_of_runes_ascii by (apply Forall_app; auto).
      destruct (IH (cs ++ [pend ++ [r]]) (pend ++ [r]) []) as (st & Hst & Hfin).
      * rewrite length_app. simpl. lia.
      * simpl. lia.
      * done.
      * done.
      * exists st. split; [exact Hst|]. rewrite Hfin.
        rewrite (groups_app_full _ (pend ++ [r])) by (rewrite ?length_app; simpl; lia).
        by rewrite <-app_assoc.
    + rewrite bool_decide_false by done. cbn [mbind option_bind].
      destruct (IH cs (<[length pend:=r]> buf) (pend ++ [r])) as (st & Hst & Hfin).
      * rewrite length_insert. done.
      * rewrite length_app. simpl. lia.
      * rewrite length_app. simpl. rewrite Nat.add_1_r. done.
      * apply Forall_app; auto.
      * exists st. split; [|done].
        rewrite <-Hst. f_equal. f_equal. rewrite length_app. simpl. lia.
Qed.

Lemma SplitN_ascii s n :
  0 < n → s ≠ [] → Forall ascii_char s → SplitN s n = Some (groups (Z.to_nat n) s).
Proof.
  intros Hn Hs Hascii. unfold SplitN. case_bool_decide as Hlen.
  - rewrite groups_short; [done|done|lia].
  - rewrite bool_decide_false by lia. rewrite range_ascii by done.
    destruct (SplitN_loop n s Hn Hascii [] (replicate (Z.to_nat n) 0) [])
      as ([cs buf i] & Hst & Hfin).
    + by rewrite length_replicate.
    + simpl. lia.
    + done.
    + done.
    + change (Z.of_nat (length [])) with 0 in Hst. rewrite Hst.
      cbn [mbind option_bind]. unfold SplitN_finish in Hfin. cbn [pos chunks chunk app] in Hfin.
      rewrite <-Hfin. by case_bool_decide.
Qed.

(** ** [strings.ToLower] and [strings.Join] *)

Lemma ToLower_ascii mapLower s :
  Forall ascii_char s → strings.ToLower mapLower s = strings.lower <$> s.
Proof.
  intros Hs. unfold strings.ToLower.
  assert (strings.isASCII s = true) as ->.
  { unfold strings.isASCII. apply forallb_forall. intros c Hc.
    apply bool_decide_eq_true_2. apply list_elem_of_In in Hc.
    rewrite Forall_forall in Hs. specialize (Hs c Hc). unfold ascii_char, utf8.RuneSelf in *. lia. }
  destruct (strings.hasUpper s) eqn:Hup; [done|].
  symmetry. rewrite <-(list_fmap_id s) at 2. apply list_fmap_ext.
  intros i c Hc. unfold strings.lower. case_bool_decide as Hrange; [|done].
  exfalso. assert (existsb (λ c, bool_decide (chr "A" ≤ c ≤ chr "Z")) s = true); [|unfold strings.hasUpper in Hup; congruence].
  apply existsb_exists. exists c. split; [|by apply bool_decide_eq_true_2].
  apply list_elem_of_In. by eapply list_elem_of_lookup_2.
Qed.

Lemma Join_tail_length (elems : list (list Z)) sep :
  length (elems ≫= λ s, sep ++ s)
  = (length (concat elems) + length elems * length sep)%nat.
Proof.
  induction elems as [|e elems IH]; [done|].
  cbn [mbind list_bind concat length].
  change (mbind (λ s, sep ++ s) elems) with (elems ≫= λ s, sep ++ s).
  rewrite !length_app, IH. lia.
Qed.

Lemma Join_length elems sep :
  length (strings.Join elems sep)
  = (length (concat elems) + (length elems - 1) * length sep)%nat.
Proof.
  destruct elems as [|e elems]; [done|].
  cbn [strings.Join concat length]. rewrite !length_app, Join_tail_length. lia.
Qed.

Lemma Join_tail_filter (P : Z → Prop) `{!∀ x, Decision (P x)} (elems : list (list Z)) h :
  ¬ P h → filter P (elems ≫= λ s, [h] ++ s) = filter P (concat elems).
Proof.
  intros Hh. induction elems as [|e elems IH]; [done|].
  cbn [mbind list_bind concat].
  change (mbind (λ s, [h] ++ s) elems) with (elems ≫= λ s, [h] ++ s).
  rewrite !filter_app, IH. cbn [app]. by rewrite filter_cons_False, filter_nil.
Qed.

Lemma Join_filter (P : Z → Prop) `{!∀ x, Decision (P x)} elems h :
  ¬ P h → filter P (strings.Join elems [h]) = filter P (concat elems).
Proof.
  intros Hh. destruct elems as [|e elems]; [done|].
  cbn [strings.Join concat]. by rewrite !filter_app, Join_tail_filter.
Qed.

Lemma Join_Forall (P : Z → Prop) elems sep :
  Forall P sep → Forall (Forall P) elems → Forall P (strings.Join elems sep).
Proof.
  intros Hsep Hel. destruct Hel as [|e elems He Hel]; [constructor|].
  cbn [strings.Join]. apply Forall_app. split; [done|].
  induction Hel as [|e' elems He' Hel IH]; [constructor|].
  cbn [mbind list_bind]. rewrite !Forall_app. done.
Qed.

Lemma filter_all (P : Z → Prop) `{!∀ x, Decision (P x)} (l : list Z) :
  Forall P l → filter P l = l.
Proof.
  induction 1 as [|x l Hx Hl IH]; [done|]. by rewrite filter_cons_True, IH.
Qed.

Lemma encodeStd_lower :
  Forall (λ c, (0 ≤ c < 128) ∧ c ≠ 45 ∧
               (97 ≤ strings.lower c ≤ 122 ∨ 50 ≤ strings.lower c ≤ 55))
         base32.encodeStd.
Proof. apply (bool_decide_unpack _). by vm_compute. Qed.

Lemma Encode_ascii src : Forall ascii_char (base32.Encode src).
Proof.
  eapply Forall_impl; [apply Encode_alphabet|]. intros c Hc.
  pose proof encodeStd_lower as H. rewrite Forall_forall in H.
  by destruct (H c Hc).
Qed.

Lemma lower_Encode src :
  Forall (λ c, ascii_char c ∧ c ≠ hyphen ∧ base32_lower c)
         (strings.lower <$> base32.Encode src).
Proof.
  apply Forall_fmap. eapply Forall_impl; [apply Encode_alphabet|]. intros c Hc.
  pose proof encodeStd_lower as H. rewrite Forall_forall in H.
  destruct (H c Hc) as (Hasc & Hne & Hlow). cbn [compose].
  change (chr "a") with 97 in *. unfold base32_lower, ascii_char, hyphen.
  change (chr "a") with 97. change (chr "z") with 122.
  change (chr "2") with 50. change (chr "7") with 55. change (chr "-") with 45.
  lia.
Qed.

Lemma hyphenate_Join gs : Spec.hyphenate gs = strings.Join gs (str "-").
Proof.
  destruct gs as [|g gs]; [done|]. revert g.
  induction gs as [|g' gs IH]; intros g.
  - cbn. by rewrite app_nil_r.
  - change (Spec.hyphenate (g :: g' :: gs)) with (g ++ hyphen :: Spec.hyphenate (g' :: gs)).
    rewrite IH. done.
Qed.

Lemma big_endian4_PutUint32 c : Spec.big_endian4 c = binary.BigEndian_PutUint32 c.
Proof.
  unfold Spec.big_endian4, binary.BigEndian_PutUint32, byte.
  change 255 with (Z.ones 8). rewrite !Z.land_ones, !Z.shiftr_div_pow2 by lia.
  by rewrite Z.pow_0_r, Z.div_1_r || done.
Qed.

Section Fingerprint.
Variable mapLower : gostring → gostring.

Lemma text_length D : length (text D) = 53%nat.
Proof.
  unfold text, base32.EncodeToString.
  rewrite length_fmap, Encode_length, !length_app, Sum224_length. done.
Qed.

Lemma text_chars D :
  Forall (λ c, ascii_char c ∧ c ≠ hyphen ∧ base32_lower c) (text D).
Proof. apply lower_Encode. Qed.

Lemma SelfAuthenticating_groups D :
  SelfAuthenticating mapLower D = Some (strings.Join (groups 5 (text D)) (str "-")).
Proof.
  unfold SelfAuthenticating. cbv zeta.
  rewrite ToLower_ascii by apply Encode_ascii.
  fold (text D).
  rewrite SplitN_ascii; [done|lia| |].
  - intros Heq. pose proof (text_length D) as Hlen. by rewrite Heq in Hlen.
  - eapply Forall_impl; [apply text_chars|]. by intros c [? _].
Qed.
End Fingerprint.

Lemma filter_split_length (P Q : Z → Prop)
    `{!∀ x, Decision (P x), !∀ x, Decision (Q x)} (l : list Z) :
  (∀ x, Q x ↔ ¬ P x) →
  (length (filter P l) + length (filter Q l) = length l)%nat.
Proof.
  intros HPQ. induction l as [|x l IH]; [done|].
  destruct (decide (P x)).
  - rewrite filter_cons_True, (filter_cons_False Q) by (rewrite ?HPQ; tauto).
    simpl. lia.
  - rewrite filter_cons_False, (filter_cons_True Q) by (rewrite ?HPQ; tauto).
    simpl. lia.
Qed.

(** ** The fingerprint encoder *)

Section Claims.
Variable mapLower : gostring → gostring.

(** [SelfAuthenticating] computes the principal of the specification. *)
Lemma SelfAuthenticating_Principal (D : bytes) :
  SelfAuthenticating mapLower D = Some (Spec.Principal D).
Proof.
  rewrite SelfAuthenticating_groups. f_equal.
  unfold Spec.Principal. rewrite hyphenate_Join, big_endian4_PutUint32.
  rewrite <-Encode_rfc4648; [done|].
  rewrite !Forall_app. split; [apply PutUint32_bytes|].
  split; [apply Sum224_bytes|]. by repeat constructor.
Qed.

(** C1: for every byte sequence [D], [SelfAuthenticating D] returns the
    text obtained from the 28-byte SHA-224 digest of [D] by appending the
    tag byte 0x02 (29 bytes), prepending the IEEE CRC-32 of those 29
    bytes as four big-endian bytes (33 bytes), encoding in unpadded
    standard base 32, lowercasing, and joining the groups of five
    characters with hyphens. *)
Theorem C1_SelfAuthenticating_pipeline (D : bytes) :
  let digest := sha256.Sum224 D in
  let T := digest ++ [0x02] in
  let buf := Spec.big_endian4 (crc32.ChecksumIEEE T) ++ T in
  length digest = 28%nat ∧ length T = 29%nat ∧ length buf = 33%nat ∧
  SelfAuthenticating mapLower D = Some (Spec.Principal D).
Proof.
  cbv zeta. rewrite !length_app, Sum224_length. repeat split; try done.
  apply SelfAuthenticating_Principal.
Qed.

Lemma principal_unhyphen D :
  filter (λ c, c ≠ hyphen) (strings.Join (groups 5 (text D)) (str "-")) = text D.
Proof.
  change (str "-") with [hyphen].
  rewrite Join_filter by (intros H; by apply H).
  rewrite concat_groups by lia. apply filter_all.
  eapply Forall_impl; [apply text_chars|]. by intros c (_ & ? & _).
Qed.

Lemma principal_length D :
  length (strings.Join (groups 5 (text D)) (str "-")) = 63%nat.
Proof.
  rewrite Join_length, concat_groups, length_groups, text_length by lia. done.
Qed.

Lemma principal_chars D :
  Forall (λ c, c = chr "-" ∨ chr "a" ≤ c ≤ chr "z" ∨ chr "2" ≤ c ≤ chr "7")
         (strings.Join (groups 5 (text D)) (str "-")).
Proof.
  apply Join_Forall.
  - repeat constructor.
  - apply Forall_groups; [lia|].
    eapply Forall_impl; [apply text_chars|]. intros c (_ & _ & H). by right.
Qed.

(** C2: for every DER byte sequence, the principal is 63 characters
    long: 53 characters that are not hyphens and 10 hyphens. *)
Theorem C2_principal_length (D : bytes) :
  ∃ p, SelfAuthenticating mapLower D = Some p ∧
       length p = 63%nat ∧
       length (filter (λ c, c ≠ hyphen) p) = 53%nat ∧
       length (filter (λ c, c = hyphen) p) = 10%nat.
Proof.
  eexists. split; [apply SelfAuthenticating_groups|].
  pose proof (principal_length D) as Hlen.
  assert (length (filter (λ c, c ≠ hyphen)
                    (strings.Join (groups 5 (text D)) (str "-"))) = 53%nat) as Hf.
  { by rewrite principal_unhyphen, text_length. }
  repeat split; [done..|].
  pose proof (filter_split_length (λ c, c = hyphen) (λ c, c ≠ hyphen)
                (strings.Join (groups 5 (text D)) (str "-"))) as Hsum.
  rewrite Hlen, Hf in Hsum. specialize (Hsum (λ _, reflexivity _)). lia.
Qed.

(** C7: removing the hyphens from a principal and cutting what is left
    into consecutive groups of five joined by hyphens gives the principal
    back; so does the chunking step of the program itself, [SplitN] with
    [strings.Join]. *)
Theorem C7_chunking_law (D : bytes) :
  ∃ p, SelfAuthenticating mapLower D = Some p ∧
       Spec.hyphenate (groups 5 (filter (λ c, c ≠ hyphen) p)) = p ∧
       (parts ← SplitN (filter (λ c, c ≠ hyphen) p) 5;
        Some (strings.Join parts (str "-"))) = Some p.
Proof.
  eexists. split; [apply SelfAuthenticating_groups|].
  rewrite principal_unhyphen. split; [apply hyphenate_Join|].
  rewrite SplitN_ascii; [done|lia| |].
  - intros Heq. pose proof (text_length D) as Hlen. by rewrite Heq in Hlen.
  - eapply Forall_impl; [apply text_chars|]. by intros c [? _].
Qed.

(** C8: every character of a principal is the hyphen or one of
    [a]..[z], [2]..[7]. *)
Theorem C8_principal_alphabet (D : bytes) :
  ∃ p, SelfAuthenticating mapLower D = Some p ∧
       Forall (λ c, c = chr "-" ∨ chr "a" ≤ c ≤ chr "z" ∨ chr "2" ≤ c ≤ chr "7") p.
Proof.
  eexists. split; [apply SelfAuthenticating_groups|]. apply principal_chars.
Qed.

(** The fingerprint encoder neither panics nor fails: [ECPubKeyToPrincipal]
    returns an error only if [EncodeECPubKey] does. *)
Lemma ECPubKeyToPrincipal_shape pubKey p :
  ECPubKeyToPrincipal mapLower pubKey = Some (p, None) →
  length p = 63%nat ∧
  Forall (λ c, c = chr "-" ∨ chr "a" ≤ c ≤ chr "z" ∨ chr "2" ≤ c ≤ chr "7") p.
Proof.
  unfold ECPubKeyToPrincipal.
  destruct (EncodeECPubKey pubKey) as [[der [e|]]|]; cbn [mbind option_bind];
    [done| |done].
  rewrite SelfAuthenticating_groups. cbn [mbind option_bind]. intros [= <-].
  split; [apply principal_length|apply principal_chars].
Qed.
End Claims.

(** ** The encoded public key *)

Lemma Marshal_ECPubKey bs :
  length bs = 65%nat →
  asn1.Marshal (reflect
    {| Metadata := {| ECPubKeyOID := [1; 2; 840; 10045; 2; 1];
                      NamedCurveOID := SECP256K1 |};
       PublicKey := {| Bytes := bs; BitLength := 0 |} |})
  = (SpecDER.tlv SpecDER.SEQUENCE
      (SpecDER.tlv SpecDER.SEQUENCE
         (SpecDER.tlv SpecDER.OBJECT_IDENTIFIER (SpecDER.oid_content [1; 2; 840; 10045; 2; 1]) ++
          SpecDER.tlv SpecDER.OBJECT_IDENTIFIER (SpecDER.oid_content [1; 3; 132; 0; 10])) ++
       SpecDER.tlv SpecDER.BIT_STRING (0 :: bs)), None).
Proof.
  intros Hlen. unfold asn1.Marshal, reflect.
  cbn [Metadata PublicKey ECPubKeyOID NamedCurveOID Bytes BitLength asn1.makeField].
  let v := eval vm_compute in (asn1.makeObjectIdentifier [1; 2; 840; 10045; 2; 1]) in
  change (asn1.makeObjectIdentifier [1; 2; 840; 10045; 2; 1]) with v.
  let v := eval vm_compute in (asn1.makeObjectIdentifier SECP256K1) in
  change (asn1.makeObjectIdentifier SECP256K1) with v.
  cbv beta iota.
  unfold asn1.bitStringEncoder.
  rewrite ?app_nil_r, ?length_app. cbn [length]. rewrite ?length_app. cbn [length].
  rewrite Hlen.
  unfold SpecDER.tlv. rewrite ?length_app. cbn [length]. rewrite ?length_app. cbn [length].
  rewrite Hlen.
  vm_compute. reflexivity.
Qed.

Lemma byte_shiftr x k : 0 ≤ k → byte (x ≫ k) = (x / 2 ^ k) mod 256.
Proof.
  intros Hk. unfold byte. change 255 with (Z.ones 8).
  by rewrite Z.land_ones, Z.shiftr_div_pow2 by lia.
Qed.

Lemma FillBytes_pad32 x :
  0 ≤ x < 2 ^ 256 → big.FillBytes x 32 = Some (SpecDER.pad32 x).
Proof.
  intros Hx. unfold big.FillBytes.
  rewrite bool_decide_true by (rewrite Z.abs_eq by lia; change (8 * Z.of_nat 32) with 256; lia).
  f_equal. unfold SpecDER.pad32, seqZ. change (Z.to_nat 32) with 32%nat.
  rewrite <-!fmap_reverse, <-list_fmap_compose.
  apply list_fmap_ext. intros i k _. cbn [compose].
  rewrite Z.abs_eq, byte_shiftr by lia. do 3 f_equal. lia.
Qed.

Lemma pad32_length x : length (SpecDER.pad32 x) = 32%nat.
Proof. done. Qed.

Lemma valid_point_on_curve pubKey :
  valid_point pubKey →
  elliptic.panicIfNotOnCurve btcec.S256 (btcec.X pubKey) (btcec.Y pubKey) = Some ().
Proof.
  intros (Hx & Hy & Heq). unfold elliptic.panicIfNotOnCurve.
  destruct (_ && _); [done|]. cbn [elliptic.IsOnCurve btcec.S256].
  unfold btcec.IsOnCurve. rewrite !Z.abs_eq by lia.
  by rewrite bool_decide_true.
Qed.

Lemma fieldPrime_lt : btcec.fieldPrime < 2 ^ 256.
Proof. done. Qed.

Lemma EncodeECPubKey_valid pubKey :
  valid_point pubKey →
  EncodeECPubKey pubKey
  = Some (SpecDER.EncodedPublicKeyRecord (btcec.X pubKey) (btcec.Y pubKey), None).
Proof.
  intros Hv. pose proof Hv as (Hx & Hy & _). pose proof fieldPrime_lt.
  unfold EncodeECPubKey, elliptic.Marshal, btcec.ToECDSA. cbv zeta.
  rewrite valid_point_on_curve by done. cbn [mbind option_bind].
  change (Z.to_nat ((elliptic.BitSize btcec.S256 + 7) / 8)) with 32%nat.
  rewrite !FillBytes_pad32 by lia. cbn [mbind option_bind].
  rewrite Marshal_ECPubKey; [done|].
  cbn [length]. by rewrite length_app, !pad32_length.
Qed.

Lemma ECPubKeyToPrincipal_unfold mapLower pubKey :
  ECPubKeyToPrincipal mapLower pubKey
  = match EncodeECPubKey pubKey with
    | Some (der, None) =>
        match SelfAuthenticating mapLower der with
        | Some principal => Some (principal, None)
        | None => None
        end
    | Some (_, Some err) => Some ([], Some err)
    | None => None
    end.
Proof.
  unfold ECPubKeyToPrincipal.
  by destruct (EncodeECPubKey pubKey) as [[der [err|]]|].
Qed.

(** On a valid public key the whole encoding pipeline returns the
    principal of its encoded record. *)
Lemma ECPubKeyToPrincipal_valid mapLower pubKey :
  valid_point pubKey →
  ECPubKeyToPrincipal mapLower pubKey
  = Some (Spec.Principal
            (SpecDER.EncodedPublicKeyRecord (btcec.X pubKey) (btcec.Y pubKey)),
          None).
Proof.
  intros Hv. rewrite ECPubKeyToPrincipal_unfold, EncodeECPubKey_valid by done.
  by rewrite SelfAuthenticating_Principal.
Qed.

(** C3: for a valid public key of secp256k1, [EncodeECPubKey] returns, with
    no error, the DER encoding of a SEQUENCE of a SEQUENCE of the object
    identifiers 1.2.840.10045.2.1 and 1.3.132.0.10 and of a BIT STRING with
    no unused bits holding 0x04, then X, then Y, each big-endian on 32
    bytes; the bytes depend on the point alone. *)
Theorem C3_EncodeECPubKey_DER (pubKey : btcec.PublicKey) :
  valid_point pubKey →
  EncodeECPubKey pubKey
  = Some (SpecDER.EncodedPublicKeyRecord (btcec.X pubKey) (btcec.Y pubKey), None)
  ∧ ∀ pubKey', btcec.X pubKey' = btcec.X pubKey → btcec.Y pubKey' = btcec.Y pubKey →
               EncodeECPubKey pubKey' = EncodeECPubKey pubKey.
Proof.
  intros Hv. split; [by apply EncodeECPubKey_valid|].
  intros pubKey' HX HY. unfold EncodeECPubKey, btcec.ToECDSA. by rewrite HX, HY.
Qed.

Lemma EncodedPublicKeyRecord_bytes x y :
  SpecDER.EncodedPublicKeyRecord x y
  = [0x30; 0x56; 0x30; 0x10;
     0x06; 0x07; 0x2A; 0x86; 0x48; 0xCE; 0x3D; 0x02; 0x01;
     0x06; 0x05; 0x2B; 0x81; 0x04; 0x00; 0x0A;
     0x03; 0x42; 0x00; 0x04] ++ SpecDER.pad32 x ++ SpecDER.pad32 y.
Proof.
  unfold SpecDER.EncodedPublicKeyRecord, SpecDER.uncompressed, SpecDER.tlv.
  rewrite ?length_app. cbn [length]. rewrite ?length_app, !pad32_length. done.
Qed.

Lemma C3_witness :
  valid_point keychain.G1 ∧
  EncodeECPubKey keychain.G1
  = Some (SpecDER.EncodedPublicKeyRecord (btcec.X keychain.G1) (btcec.Y keychain.G1),
          None)
  ∧ ∀ pubKey', btcec.X pubKey' = btcec.X keychain.G1 →
               btcec.Y pubKey' = btcec.Y keychain.G1 →
               EncodeECPubKey pubKey' = EncodeECPubKey keychain.G1.
Proof.
  assert (valid_point keychain.G1) as Hv.
  { unfold valid_point. split; [|split]; vm_compute; [split; congruence..|reflexivity]. }
  split; [exact Hv|]. exact (C3_EncodeECPubKey_DER keychain.G1 Hv).
Defined.

(** ** The derivation driver *)

Lemma seqZ_split i n :
  0 ≤ i < n → seqZ 0 n = seqZ 0 i ++ i :: seqZ (i + 1) (n - i - 1).
Proof.
  intros Hi. replace n with (i + (1 + (n - i - 1))) at 1 by lia.
  rewrite seqZ_app, (seqZ_cons (0 + i)) by lia.
  f_equal. rewrite Z.add_0_l. f_equal. f_equal; lia.
Qed.

Section Generate.
Variable mapLower : gostring → gostring.
Variable ExtendedKey : Type.
Variable Child : ExtendedKey → Z → error + ExtendedKey.
Variable ExtendedKey_ECPubKey : ExtendedKey → error + btcec.PublicKey.

Local Abbreviation generate := (main.generate mapLower ExtendedKey Child ExtendedKey_ECPubKey).
Local Abbreviation generate_body := (main.generate_body mapLower ExtendedKey Child ExtendedKey_ECPubKey).
Local Abbreviation derive_leaf := (main.derive_leaf ExtendedKey Child ExtendedKey_ECPubKey).
Local Abbreviation iteration_ok := (main.iteration_ok mapLower ExtendedKey Child ExtendedKey_ECPubKey).
Local Abbreviation collaborator_fails := (main.collaborator_fails mapLower ExtendedKey Child ExtendedKey_ECPubKey).
Local Abbreviation ECPubKeyToPrincipal := (main.ECPubKeyToPrincipal mapLower).

(** The loop body through [derive_leaf]. *)
Lemma generate_body_unfold m0 result i :
  generate_body m0 result i =
    match derive_leaf m0 i with
    | inl err => Some (inr ([], Some err))
    | inr pubKey =>
        '(principal, err) ← ECPubKeyToPrincipal pubKey;
        match err with
        | Some err => Some (inr ([], Some err))
        | None => Some (inl (result ++ [principal]))
        end
    end.
Proof.
  unfold main.generate_body, main.derive_leaf.
  destruct (Child m0 (uint32 i)); [done|].
  by destruct (ExtendedKey_ECPubKey _).
Qed.

Lemma generate_body_ok m0 result i p :
  iteration_ok m0 i p → generate_body m0 result i = Some (inl (result ++ [p])).
Proof.
  intros (pk & Hpk & Hp). by rewrite generate_body_unfold, Hpk, Hp.
Qed.

Lemma generate_body_ok_inv m0 result i result' :
  generate_body m0 result i = Some (inl result') →
  ∃ p, iteration_ok m0 i p ∧ result' = result ++ [p].
Proof.
  rewrite generate_body_unfold. unfold main.iteration_ok.
  destruct (derive_leaf m0 i) as [e|pk]; [done|].
  destruct (ECPubKeyToPrincipal pk) as [[p [e|]]|] eqn:Hp; cbn; [done| |done].
  intros [= <-]. eauto.
Qed.

Lemma generate_body_fail m0 result i e :
  derive_leaf m0 i = inl e → generate_body m0 result i = Some (inr ([], Some e)).
Proof. intros H. by rewrite generate_body_unfold, H. Qed.

Lemma generate_body_ret m0 result i ret :
  generate_body m0 result i = Some (inr ret) → ∃ e, ret = ([], Some e).
Proof.
  rewrite generate_body_unfold.
  destruct (derive_leaf m0 i) as [e|pk]; [intros [= <-]; eauto|].
  destruct (ECPubKeyToPrincipal pk) as [[p [e|]]|] eqn:Hp; cbn; [|done..].
  intros [= <-]. eauto.
Qed.

(** The loop ends normally exactly when every iteration does. *)
Lemma for_loop_ok m0 l : ∀ acc ps,
  Forall2 (iteration_ok m0) l ps →
  for_loop (generate_body m0) acc l = Some (inl (acc ++ ps)).
Proof.
  induction l as [|i l IH]; intros acc ps Hps.
  - apply Forall2_nil_inv_l in Hps as ->. by rewrite app_nil_r.
  - apply Forall2_cons_inv_l in Hps as (p & ps' & Hp & Hps' & ->).
    cbn [for_loop]. rewrite (generate_body_ok _ _ _ _ Hp).
    rewrite (IH _ _ Hps'). by rewrite <-app_assoc.
Qed.

Lemma for_loop_ok_inv m0 l : ∀ acc res,
  for_loop (generate_body m0) acc l = Some (inl res) →
  ∃ ps, res = acc ++ ps ∧ Forall2 (iteration_ok m0) l ps.
Proof.
  induction l as [|i l IH]; intros acc res Hres.
  - injection Hres as <-. exists []. by rewrite app_nil_r.
  - cbn [for_loop] in Hres.
    destruct (generate_body m0 acc i) as [[acc'|ret]|] eqn:Hbody; [|done..].
    apply generate_body_ok_inv in Hbody as (p & Hp & ->).
    apply IH in Hres as (ps & -> & Hps).
    exists (p :: ps). split; [by rewrite <-app_assoc|by constructor].
Qed.

Lemma for_loop_ret m0 l : ∀ acc ret,
  for_loop (generate_body m0) acc l = Some (inr ret) → ∃ e, ret = ([], Some e).
Proof.
  induction l as [|i l IH]; intros acc ret Hret; [done|].
  cbn [for_loop] in Hret.
  destruct (generate_body m0 acc i) as [[acc'|ret']|] eqn:Hbody; [by eauto| |done].
  injection Hret as <-. by eapply generate_body_ret.
Qed.

Lemma for_loop_fail m0 l1 i l2 ps e : ∀ acc,
  Forall2 (iteration_ok m0) l1 ps → derive_leaf m0 i = inl e →
  for_loop (generate_body m0) acc (l1 ++ i :: l2) = Some (inr ([], Some e)).
Proof.
  intros acc Hps. revert acc. induction Hps as [|j p l1 ps Hp Hps IH]; intros acc He.
  - cbn [app for_loop]. by rewrite (generate_body_fail _ _ _ e).
  - cbn [app for_loop]. rewrite (generate_body_ok _ _ _ _ Hp). by apply IH.
Qed.

(** [generate] returns a list and no error exactly when the intermediate
    child is derived and every iteration ends normally. *)
Lemma generate_success_iff K n ps :
  generate K n = Some (ps, None) ↔
  ∃ m0, Child K 0 = inr m0 ∧ Forall2 (iteration_ok m0) (seqZ 0 n) ps.
Proof.
  unfold main.generate. split.
  - destruct (Child K 0) as [e|m0]; [done|].
    destruct (for_loop _ _ _) as [[res|ret]|] eqn:Hloop; cbn; [| |done].
    + intros [= ->]. apply for_loop_ok_inv in Hloop as (ps' & -> & Hps). eauto.
    + apply for_loop_ret in Hloop as (e & ->). done.
  - intros (m0 & -> & Hps). by rewrite (for_loop_ok _ _ [] ps Hps).
Qed.

Lemma generate_error_nil K n r e :
  generate K n = Some (r, Some e) → r = [].
Proof.
  unfold main.generate. destruct (Child K 0) as [e'|m0]; [by intros [= <- _]|].
  destruct (for_loop _ _ _) as [[res|ret]|] eqn:Hloop; cbn; [done| |done].
  apply for_loop_ret in Hloop as (e' & ->). by intros [= <- _].
Qed.

Lemma seqZ_Forall2_lookup (P : Z → gostring → Prop) n ps :
  Forall2 P (seqZ 0 n) ps ↔
  length ps = Z.to_nat n ∧
  ∀ i, 0 ≤ i < n → ∃ p, ps !! Z.to_nat i = Some p ∧ P i p.
Proof.
  rewrite Forall2_same_length_lookup, length_seqZ. split.
  - intros [Hlen HP]. split; [done|]. intros i Hi.
    destruct (lookup_lt_is_Some_2 ps (Z.to_nat i)) as [p Hp]; [lia|].
    exists p. split; [done|]. apply (HP (Z.to_nat i)); [|done].
    apply lookup_seqZ. lia.
  - intros [Hlen HP]. split; [done|]. intros k i p [-> Hk]%lookup_seqZ Hp.
    destruct (HP (0 + Z.of_nat k)) as (p' & Hp' & HPp); [lia|].
    replace (Z.to_nat (0 + Z.of_nat k)) with k in Hp' by lia. congruence.
Qed.

Lemma iteration_ok_functional m0 i p1 p2 :
  iteration_ok m0 i p1 → iteration_ok m0 i p2 → p1 = p2.
Proof. intros (pk1 & H1 & Hp1) (pk2 & H2 & Hp2). congruence. Qed.

Lemma uint32_small i : 0 ≤ i < 2 ^ 32 → uint32 i = i.
Proof. intros. by apply Z.mod_small. Qed.

Lemma iteration_ok_index m0 i p :
  0 ≤ i < 2 ^ 32 →
  iteration_ok m0 i p ↔
  ∃ child pubKey, Child m0 i = inr child ∧
                  ExtendedKey_ECPubKey child = inr pubKey ∧
                  ECPubKeyToPrincipal pubKey = Some (p, None).
Proof.
  intros Hi. unfold main.iteration_ok, main.derive_leaf.
  rewrite uint32_small by done. split.
  - intros (pk & Hpk & Hp). destruct (Child m0 i) as [e|c]; [done|]. eauto.
  - intros (c & pk & Hc & Hpk & Hp). exists pk. by rewrite Hc.
Qed.

(** C4: for every root extended public key and every count [n >= 0],
    [generate] returns a list and no error exactly when the intermediate
    child of index 0 is derived and, for each [i] in [0, n), the leaf
    child of index [i] of that intermediate key is derived, its public
    key extracted and encoded; the list then has [n] elements, element
    [i] being the principal of leaf [i]. *)
Theorem C4_generate_index_order K n ps :
  public_keys_only ExtendedKey Child → 0 ≤ n →
  generate K n = Some (ps, None) ↔
  ∃ m0, Child K 0 = inr m0 ∧ length ps = Z.to_nat n ∧
        ∀ i, 0 ≤ i < n →
             ∃ child pubKey p,
               Child m0 i = inr child ∧
               ExtendedKey_ECPubKey child = inr pubKey ∧
               ECPubKeyToPrincipal pubKey = Some (p, None) ∧
               ps !! Z.to_nat i = Some p.
Proof.
  intros Hpub Hn. rewrite generate_success_iff.
  split; intros (m0 & Hm0 & H); exists m0; (split; [done|]).
  - apply seqZ_Forall2_lookup in H as [Hlen H]. split; [done|].
    assert (n ≤ 2 ^ 31) as Hbound.
    { destruct (decide (n ≤ 2 ^ 31)) as [|Hgt]; [done|]. exfalso.
      destruct (H (2 ^ 31)) as (p & _ & Hp); [lia|].
      apply iteration_ok_index in Hp as (c & _ & Hc & _); [|lia].
      destruct (Hpub m0 (2 ^ 31)) as [e He]; [lia|]. congruence. }
    intros i Hi. destruct (H i Hi) as (p & Hp & Hok).
    apply iteration_ok_index in Hok as (c & pk & ? & ? & ?); [|lia].
    by exists c, pk, p.
  - destruct H as [Hlen H]. apply seqZ_Forall2_lookup. split; [done|].
    assert (n ≤ 2 ^ 31) as Hbound.
    { destruct (decide (n ≤ 2 ^ 31)) as [|Hgt]; [done|]. exfalso.
      destruct (H (2 ^ 31)) as (c & _ & _ & Hc & _); [lia|].
      destruct (Hpub m0 (2 ^ 31)) as [e He]; [lia|]. congruence. }
    intros i Hi. destruct (H i Hi) as (c & pk & p & ? & ? & ? & ?).
    exists p. split; [done|]. apply iteration_ok_index; [lia|]. eauto.
Qed.

(** X16: whatever the key-derivation package, for every count [n] with
    [0 <= n <= 2^32], [generate] returns a list and no error exactly when
    the intermediate child is derived and every leaf [i] in [0, n) is
    derived, its public key extracted and encoded, element [i] being the
    principal of leaf [i]; beyond [2^32] the loop passes [uint32 i]. *)
Lemma generate_index_order_bounded K n ps :
  0 ≤ n ≤ 2 ^ 32 →
  generate K n = Some (ps, None) ↔
  ∃ m0, Child K 0 = inr m0 ∧ length ps = Z.to_nat n ∧
        ∀ i, 0 ≤ i < n →
             ∃ child pubKey p,
               Child m0 i = inr child ∧
               ExtendedKey_ECPubKey child = inr pubKey ∧
               ECPubKeyToPrincipal pubKey = Some (p, None) ∧
               ps !! Z.to_nat i = Some p.
Proof.
  intros Hn. rewrite generate_success_iff.
  split; intros (m0 & Hm0 & H); exists m0; (split; [done|]).
  - apply seqZ_Forall2_lookup in H as [Hlen H]. split; [done|].
    intros i Hi. destruct (H i Hi) as (p & Hp & Hok).
    apply iteration_ok_index in Hok as (c & pk & ? & ? & ?); [|lia].
    by exists c, pk, p.
  - destruct H as [Hlen H]. apply seqZ_Forall2_lookup. split; [done|].
    intros i Hi. destruct (H i Hi) as (c & pk & p & ? & ? & ? & ?).
    exists p. split; [done|]. apply iteration_ok_index; [lia|]. eauto.
Qed.

(** C5: when the key-derivation package fails during a run (on the
    intermediate child, on a leaf child, or on the public key of a leaf),
    [generate] returns that error and the nil list; whenever it returns
    an error the list is nil; and whenever it returns a list, no
    iteration failed or was left out. *)
Theorem C5_collaborator_failure_aborts K n err :
  collaborator_fails K n err →
  generate K n = Some ([], Some err) ∧
  (∀ r e, generate K n = Some (r, Some e) → r = []) ∧
  (∀ ps, generate K n = Some (ps, None) →
         ∃ m0, Child K 0 = inr m0 ∧ length ps = Z.to_nat n ∧
               ∀ i, 0 ≤ i < n → ∃ pubKey, derive_leaf m0 i = inr pubKey).
Proof.
  intros Hfail. split; [|split].
  - destruct Hfail as [Hm0|(m0 & i & Hm0 & Hi & Hbefore & Hleaf)].
    + unfold main.generate. by rewrite Hm0.
    + unfold main.generate. rewrite Hm0.
      rewrite (seqZ_split i n) by done.
      destruct (proj1 (Forall_exists_Forall2_l (iteration_ok m0) (seqZ 0 i))) as [ps Hps].
      { apply Forall_forall. intros j Hj%elem_of_seqZ. apply Hbefore. lia. }
      by rewrite (for_loop_fail _ _ _ _ ps err [] Hps Hleaf).
  - apply generate_error_nil.
  - intros ps (m0 & Hm0 & H)%generate_success_iff. exists m0. split; [done|].
    apply seqZ_Forall2_lookup in H as [Hlen H]. split; [done|].
    intros i Hi. destruct (H i Hi) as (p & _ & pk & Hpk & _). eauto.
Qed.

(** Every principal [generate] returns has the fixed length and the
    alphabet of the encoder. *)
Lemma generate_principals_shape K n ps :
  generate K n = Some (ps, None) →
  Forall (λ p, length p = 63%nat ∧
               Forall (λ c, c = chr "-" ∨ chr "a" ≤ c ≤ chr "z" ∨
                            chr "2" ≤ c ≤ chr "7") p) ps.
Proof.
  intros (m0 & _ & H)%generate_success_iff.
  induction H as [|i p l ps (pk & _ & Hp) _ IH]; constructor; [|done].
  by eapply ECPubKeyToPrincipal_shape.
Qed.


(** With a count of 0 the result is decided by the intermediate child
    alone. *)
Lemma generate_zero_cases K :
  generate K 0 = match Child K 0 with
                 | inl err => Some ([], Some err)
                 | inr _ => Some ([], None)
                 end.
Proof. unfold main.generate. by destruct (Child K 0). Qed.

(** C9: two runs on the same extended public key, with any two counts
    above [i], that both return a list, return the same string at
    position [i]. *)
Theorem C9_principal_deterministic K n1 n2 i ps1 ps2 :
  generate K n1 = Some (ps1, None) → generate K n2 = Some (ps2, None) →
  0 ≤ i < n1 → i < n2 →
  ∃ p, ps1 !! Z.to_nat i = Some p ∧ ps2 !! Z.to_nat i = Some p.
Proof.
  intros (m1 & Hm1 & H1)%generate_success_iff (m2 & Hm2 & H2)%generate_success_iff Hi1 Hi2.
  assert (m2 = m1) as -> by congruence.
  apply seqZ_Forall2_lookup in H1 as [_ H1]. apply seqZ_Forall2_lookup in H2 as [_ H2].
  destruct (H1 i) as (p1 & Hp1 & Hok1); [lia|].
  destruct (H2 i) as (p2 & Hp2 & Hok2); [lia|].
  exists p1. split; [done|]. by rewrite (iteration_ok_functional _ _ _ _ Hok1 Hok2).
Qed.

(** C10: a negative count behaves as the count 0: when the intermediate
    child of index 0 is derived, [generate] returns the empty list and no
    error. *)
Theorem C10_generate_negative K n m0 :
  n < 0 → Child K 0 = inr m0 →
  generate K n = Some ([], None) ∧ generate K n = generate K 0.
Proof.
  intros Hn Hm0. unfold main.generate. rewrite Hm0.
  by rewrite (seqZ_nil 0 n) by lia.
Qed.

(** A negative count behaves as the count 0 on every key. *)
Lemma generate_negative_zero K n : n < 0 → generate K n = generate K 0.
Proof.
  intros Hn. unfold main.generate. by rewrite (seqZ_nil 0 n) by lia.
Qed.
End Generate.

(** ** The claims about [generate] on the small key-derivation package *)

Example generate_master_3 :
  keychain.generate keychain.master 3 = Some ([p1; p2; p3], None).
Proof. vm_compute. reflexivity. Qed.

Lemma keychain_public_keys_only :
  public_keys_only keychain.ExtendedKey keychain.Child.
Proof.
  intros k i Hi. unfold keychain.Child.
  case_bool_decide; [by eexists|].
  rewrite bool_decide_true by done. by eexists.
Qed.

Lemma C4_witness :
  public_keys_only keychain.ExtendedKey keychain.Child ∧ 0 ≤ 2 ∧
  (keychain.generate keychain.master 2 = Some ([p1; p2], None) ↔
   ∃ m0, keychain.Child keychain.master 0 = inr m0 ∧
         length [p1; p2] = Z.to_nat 2 ∧
         ∀ i, 0 ≤ i < 2 →
              ∃ child pubKey p,
                keychain.Child m0 i = inr child ∧
                keychain.ECPubKey child = inr pubKey ∧
                ECPubKeyToPrincipal id pubKey = Some (p, None) ∧
                [p1; p2] !! Z.to_nat i = Some p).
Proof.
  split; [exact keychain_public_keys_only|]. split; [lia|].
  apply (C4_generate_index_order id keychain.ExtendedKey keychain.Child
           keychain.ECPubKey keychain.master 2 [p1; p2]);
    [exact keychain_public_keys_only|lia].
Defined.

Lemma C5_witness :
  collaborator_fails id keychain.ExtendedKey keychain.Child keychain.ECPubKey
    keychain.master_invalid1 3 keychain.ErrInvalidChild ∧
  keychain.generate keychain.master_invalid1 3
  = Some ([], Some keychain.ErrInvalidChild).
Proof.
  assert (collaborator_fails id keychain.ExtendedKey keychain.Child keychain.ECPubKey
            keychain.master_invalid1 3 keychain.ErrInvalidChild) as Hfail.
  { right.
    exists {| keychain.depth := 1; keychain.childNum := 0; keychain.invalidChild := 1 |}, 1.
    split; [reflexivity|]. split; [lia|]. split; [|reflexivity].
    intros j Hj. assert (j = 0) as -> by lia.
    exists p1, keychain.G1. split; [reflexivity|]. vm_compute. reflexivity. }
  split; [exact Hfail|].
  apply (C5_collaborator_failure_aborts id keychain.ExtendedKey keychain.Child
           keychain.ECPubKey keychain.master_invalid1 3 keychain.ErrInvalidChild Hfail).
Defined.



Lemma C9_witness :
  keychain.generate keychain.master 2 = Some ([p1; p2], None) ∧
  keychain.generate keychain.master 3 = Some ([p1; p2; p3], None) ∧
  0 ≤ 1 < 2 ∧ 1 < 3 ∧
  ∃ p, [p1; p2] !! Z.to_nat 1 = Some p ∧ [p1; p2; p3] !! Z.to_nat 1 = Some p.
Proof.
  assert (keychain.generate keychain.master 2 = Some ([p1; p2], None)) as H2
    by (vm_compute; reflexivity).
  assert (keychain.generate keychain.master 3 = Some ([p1; p2; p3], None)) as H3
    by (vm_compute; reflexivity).
  split; [exact H2|]. split; [exact H3|]. split; [lia|]. split; [lia|].
  apply (C9_principal_deterministic id keychain.ExtendedKey keychain.Child
           keychain.ECPubKey keychain.master 2 3 1 [p1; p2] [p1; p2; p3] H2 H3); lia.
Defined.

Lemma C10_witness :
  -3 < 0 ∧
  keychain.Child keychain.master 0
  = inr {| keychain.depth := 1; keychain.childNum := 0; keychain.invalidChild := -1 |} ∧
  keychain.generate keychain.master (-3) = Some ([], None) ∧
  keychain.generate keychain.master (-3) = keychain.generate keychain.master 0.
Proof.
  split; [lia|]. split; [reflexivity|].
  apply (C10_generate_negative id keychain.ExtendedKey keychain.Child keychain.ECPubKey
           keychain.master (-3)
           {| keychain.depth := 1; keychain.childNum := 0; keychain.invalidChild := -1 |});
    [lia|reflexivity].
Defined.

(** * Further properties of the program *)

(** ** [SplitN] on any string *)

Lemma SplitN_loop_runes n rs :
  0 < n →
  ∀ cs buf pend,
    length buf = Z.to_nat n → (length pend < Z.to_nat n)%nat →
    take (length pend) buf = pend →
    ∃ st, for_range (SplitN_body n) (SplitState cs buf (Z.of_nat (length pend))) rs
          = Some st
          ∧ SplitN_finish st
            = cs ++ (utf8.string_of_runes <$> groups (Z.to_nat n) (pend ++ rs)).
Proof.
  intros Hn. induction rs as [|r rs IH]; intros cs buf pend Hbuf Hlt Htake.
  - eexists; split; [done|]. unfold SplitN_finish. cbn [pos chunks chunk].
    rewrite app_nil_r. destruct pend as [|c pend].
    + by rewrite bool_decide_false, groups_nil, app_nil_r by (simpl; lia).
    + rewrite bool_decide_true by (simpl; lia).
      rewrite Nat2Z.id, Htake.
      rewrite groups_short; [done..|lia].
  - cbn [for_range]. rewrite SplitN_body_in by lia. rewrite Nat2Z.id.
    assert (take (S (length pend)) (<[length pend:=r]> buf) = pend ++ [r]) as Htake'.
    { rewrite (take_S_r _ _ r).
      - by rewrite take_insert_ge, Htake by lia.
      - apply list_lookup_insert_eq. lia. }
    replace (pend ++ r :: rs) with ((pend ++ [r]) ++ rs) by by rewrite <-app_assoc.
    destruct (decide (Z.of_nat (length pend) + 1 = n)) as [Heq|Hne].
    + rewrite bool_decide_true by done. cbn [mbind option_bind].
      assert (<[length pend:=r]> buf = pend ++ [r]) as Hfull.
      { rewrite <-Htake'. symmetry. apply take_ge. rewrite length_insert. lia. }
      rewrite Hfull.
      destruct (IH (cs ++ [utf8.string_of_runes (pend ++ [r])]) (pend ++ [r]) [])
        as (st & Hst & Hfin).
      * rewrite length_app. simpl. lia.
      * simpl. lia.
      * done.
      * exists st. split; [exact Hst|]. rewrite Hfin.
        rewrite (groups_app_full _ (pend ++ [r])) by (rewrite ?length_app; simpl; lia).
        cbn [app fmap list_fmap]. by rewrite <-app_assoc.
    + rewrite bool_decide_false by done. cbn [mbind option_bind].
      destruct (IH cs (<[length pend:=r]> buf) (pend ++ [r])) as (st & Hst & Hfin).
      * rewrite length_insert. done.
      * rewrite length_app. simpl. lia.
      * rewrite length_app. simpl. rewrite Nat.add_1_r. done.
      * exists st. split; [|done].
        rewrite <-Hst. f_equal. f_equal. rewrite length_app. simpl. lia.
Qed.

(** X1: for a positive [n], [SplitN] returns the string itself when it
    has at most [n] bytes, and otherwise the consecutive groups of [n]
    runes of the string, each encoded again; it never panics. *)
Theorem SplitN_groups_of_runes (s : gostring) (n : Z) :
  0 < n →
  SplitN s n
  = Some (if bool_decide (Z.of_nat (length s) ≤ n) then [s]
          else utf8.string_of_runes <$> groups (Z.to_nat n) (utf8.range s)).
Proof.
  intros Hn. unfold SplitN. case_bool_decide as Hlen; [done|].
  rewrite bool_decide_false by lia.
  destruct (SplitN_loop_runes n (utf8.range s) Hn [] (replicate (Z.to_nat n) 0) [])
    as ([cs buf i] & Hst & Hfin).
  - by rewrite length_replicate.
  - simpl. lia.
  - done.
  - change (Z.of_nat (length [])) with 0 in Hst. rewrite Hst.
    cbn [mbind option_bind]. unfold SplitN_finish in Hfin.
    cbn [pos chunks chunk app] in Hfin. rewrite <-Hfin. by case_bool_decide.
Qed.

Lemma SplitN_groups_of_runes_witness :
  0 < 3 ∧
  SplitN (str "abcdefgh") 3
  = Some (if bool_decide (Z.of_nat (length (str "abcdefgh")) ≤ 3) then [str "abcdefgh"]
          else utf8.string_of_runes <$> groups (Z.to_nat 3) (utf8.range (str "abcdefgh"))).
Proof. split; [lia|]. apply (SplitN_groups_of_runes (str "abcdefgh") 3). lia. Defined.

Lemma range_nonempty s : s ≠ [] → utf8.range s ≠ [].
Proof.
  destruct s as [|c s]; [done|]. intros _. unfold utf8.range.
  cbn [length utf8.runes]. case_bool_decide; [done|].
  by destruct (utf8.decoderune (c :: s)).
Qed.

(** X2: [SplitN] panics when [n] is zero or negative and the string is
    longer than [n]: a negative [n] at [make], zero at the first store
    into the empty buffer. *)
Theorem SplitN_panics (s : gostring) (n : Z) :
  n ≤ 0 → n < Z.of_nat (length s) → SplitN s n = None.
Proof.
  intros Hn Hlen. unfold SplitN. rewrite bool_decide_false by lia.
  case_bool_decide as Hneg; [done|].
  assert (n = 0) as -> by lia.
  assert (s ≠ []) as Hs by (intros ->; simpl in Hlen; lia).
  apply range_nonempty in Hs.
  destruct (utf8.range s) as [|r rs]; [done|]. done.
Qed.

Lemma SplitN_panics_witness :
  0 ≤ 0 ∧ 0 < Z.of_nat (length (str "abc")) ∧ SplitN (str "abc") 0 = None.
Proof.
  split; [lia|]. split; [simpl; lia|].
  apply (SplitN_panics (str "abc") 0); [lia|simpl; lia].
Defined.

Lemma groups_lengths {A} n (s : list A) :
  (0 < n)%nat → Forall (λ g, (0 < length g ≤ n)%nat) (groups n s).
Proof.
  intros Hn. remember (length s) as k eqn:Hk.
  revert s Hk. induction (lt_wf k) as [k _ IH]. intros s ->.
  destruct s as [|c s]; [constructor|].
  rewrite groups_cons by done. constructor.
  - rewrite length_take. simpl. lia.
  - apply (IH (length (drop n (c :: s)))); [|done].
    rewrite length_drop. simpl. lia.
Qed.

(** X3: on a non-empty ASCII string and a positive [n], the parts
    [SplitN] returns concatenate to the string, none is empty or longer
    than [n], and there are [ceil(len / n)] of them. *)
Theorem SplitN_ascii_lossless (s : gostring) (n : Z) :
  0 < n → s ≠ [] → Forall ascii_char s →
  ∃ parts, SplitN s n = Some parts ∧ concat parts = s ∧
           Forall (λ part, (0 < length part)%nat ∧ Z.of_nat (length part) ≤ n) parts ∧
           length parts = ((length s + Z.to_nat n - 1) / Z.to_nat n)%nat.
Proof.
  intros Hn Hs Hascii. exists (groups (Z.to_nat n) s).
  split; [by apply SplitN_ascii|]. split; [apply concat_groups; lia|].
  split; [|apply length_groups; lia].
  eapply Forall_impl; [apply groups_lengths; lia|]. intros g Hg. cbn in Hg. lia.
Qed.

Lemma SplitN_ascii_lossless_witness :
  0 < 5 ∧ str "abcdefghijkl" ≠ [] ∧ Forall ascii_char (str "abcdefghijkl") ∧
  ∃ parts, SplitN (str "abcdefghijkl") 5 = Some parts ∧
           concat parts = str "abcdefghijkl" ∧
           Forall (λ part, (0 < length part)%nat ∧ Z.of_nat (length part) ≤ 5) parts ∧
           length parts
           = ((length (str "abcdefghijkl") + Z.to_nat 5 - 1) / Z.to_nat 5)%nat.
Proof.
  assert (Forall ascii_char (str "abcdefghijkl")) as Ha.
  { repeat (apply Forall_cons; split; [unfold ascii_char; vm_compute; split; congruence|]).
    apply Forall_nil_2. }
  split; [lia|]. split; [done|]. split; [exact Ha|].
  apply (SplitN_ascii_lossless (str "abcdefghijkl") 5); [lia|done|exact Ha].
Defined.

(** ** The fingerprint encoder loses nothing of the digest *)

Lemma number_snoc bs (b : bool) :
  Spec.number (bs ++ [b]) = 2 * Spec.number bs + (if b then 1 else 0).
Proof. unfold Spec.number. by rewrite foldl_app. Qed.

Lemma number_bound bs : 0 ≤ Spec.number bs < 2 ^ Z.of_nat (length bs).
Proof.
  induction bs as [|b bs IH] using rev_ind; [done|].
  rewrite number_snoc, length_app. cbn [length].
  rewrite Nat2Z.inj_add, Z.pow_add_r by lia. change (2 ^ Z.of_nat 1) with 2.
  destruct b; lia.
Qed.

Lemma number_inj bs1 : ∀ bs2,
  length bs1 = length bs2 → Spec.number bs1 = Spec.number bs2 → bs1 = bs2.
Proof.
  induction bs1 as [|b1 bs1 IH] using rev_ind; intros bs2 Hlen Hnum.
  - by destruct bs2.
  - destruct bs2 as [|b2 bs2 _] using rev_ind.
    { rewrite length_app in Hlen. simpl in Hlen. lia. }
    rewrite !length_app in Hlen. cbn [length] in Hlen.
    rewrite !number_snoc in Hnum.
    assert (b1 = b2 ∧ Spec.number bs1 = Spec.number bs2) as [-> Hn].
    { destruct b1, b2; split; (done || lia). }
    f_equal. apply IH; [lia|done].
Qed.

Lemma lower_alphabet_NoDup : NoDup (strings.lower <$> Spec.alphabet).
Proof. apply (bool_decide_unpack _). by vm_compute. Qed.

Lemma lower_alphabet_inj i j :
  0 ≤ i < 32 → 0 ≤ j < 32 →
  strings.lower (Spec.alphabet !!! Z.to_nat i)
  = strings.lower (Spec.alphabet !!! Z.to_nat j) → i = j.
Proof.
  intros Hi Hj Heq.
  assert (∀ k, 0 ≤ k < 32 →
            (strings.lower <$> Spec.alphabet) !! Z.to_nat k
            = Some (strings.lower (Spec.alphabet !!! Z.to_nat k))) as Hlook.
  { intros k Hk. rewrite list_lookup_fmap.
    destruct (lookup_lt_is_Some_2 Spec.alphabet (Z.to_nat k)) as [c Hc].
    { change (length Spec.alphabet) with 32%nat. lia. }
    rewrite Hc. cbn. f_equal. f_equal. symmetry. by apply list_lookup_total_correct. }
  pose proof (Hlook i Hi) as Hli. pose proof (Hlook j Hj) as Hlj.
  rewrite Heq in Hli.
  pose proof (NoDup_lookup _ _ _ _ lower_alphabet_NoDup Hli Hlj). lia.
Qed.

Lemma pad5_length g : (length g ≤ 5)%nat → length (Spec.pad5 g) = 5%nat.
Proof. intros. unfold Spec.pad5. rewrite length_app, length_replicate. lia. Qed.

Lemma character_inj g1 g2 :
  length g1 = length g2 → (length g1 ≤ 5)%nat →
  strings.lower (Spec.alphabet !!! Z.to_nat (Spec.number (Spec.pad5 g1)))
  = strings.lower (Spec.alphabet !!! Z.to_nat (Spec.number (Spec.pad5 g2))) →
  g1 = g2.
Proof.
  intros Hlen Hle Heq.
  pose proof (number_bound (Spec.pad5 g1)) as H1.
  pose proof (number_bound (Spec.pad5 g2)) as H2.
  rewrite pad5_length in H1, H2 by lia. change (2 ^ Z.of_nat 5) with 32 in *.
  apply lower_alphabet_inj in Heq; [|done..].
  apply number_inj in Heq; [|by rewrite !pad5_length by lia].
  unfold Spec.pad5 in Heq. by apply app_inj_1 in Heq as [? _].
Qed.

Lemma characters_inj (B1 : list bool) : ∀ B2,
  length B1 = length B2 →
  (λ g, strings.lower (Spec.alphabet !!! Z.to_nat (Spec.number (Spec.pad5 g))))
    <$> groups 5 B1
  = (λ g, strings.lower (Spec.alphabet !!! Z.to_nat (Spec.number (Spec.pad5 g))))
    <$> groups 5 B2 →
  B1 = B2.
Proof.
  remember (length B1) as k eqn:Hk. revert B1 Hk.
  induction (lt_wf k) as [k _ IH]. intros B1 -> B2 Hlen Heq.
  destruct B1 as [|b1 B1]; [by destruct B2|].
  destruct B2 as [|b2 B2]; [done|].
  rewrite (groups_cons 5 (b1 :: B1)), (groups_cons 5 (b2 :: B2)) in Heq by (lia || done).
  assert (length (take 5 (b1 :: B1)) = length (take 5 (b2 :: B2))) as Htake
    by (rewrite !length_take; lia).
  assert (length (take 5 (b1 :: B1)) ≤ 5)%nat as Hfive by (rewrite length_take; lia).
  assert (length (drop 5 (b1 :: B1)) = length (drop 5 (b2 :: B2))) as Hdrop
    by (rewrite !length_drop; lia).
  assert (length (drop 5 (b1 :: B1)) < length (b1 :: B1))%nat as Hless
    by (rewrite length_drop; simpl; lia).
  rewrite <-(take_drop 5 (b1 :: B1)), <-(take_drop 5 (b2 :: B2)).
  generalize dependent (take 5 (b1 :: B1)). generalize dependent (drop 5 (b1 :: B1)).
  generalize dependent (take 5 (b2 :: B2)). generalize dependent (drop 5 (b2 :: B2)).
  intros d2 t2 d1 Hdrop Hless t1 Heq Htake Hfive.
  rewrite !fmap_cons in Heq. injection Heq as Hhd Htl.
  apply character_inj in Hhd; [|done..].
  apply (IH (length d1)) in Htl; [|done..]. by subst.
Qed.

Lemma bits8_inj a b :
  0 ≤ a < 256 → 0 ≤ b < 256 → Spec.bits8 a = Spec.bits8 b → a = b.
Proof.
  intros Ha Hb Heq. unfold Spec.bits8 in Heq. cbn [fmap list_fmap] in Heq.
  injection Heq as H7 H6 H5 H4 H3 H2 H1 H0.
  apply Z.bits_inj'. intros n Hn.
  destruct (decide (8 ≤ n)); [by rewrite !byte_testbit_high by done|].
  assert (n = 0 ∨ n = 1 ∨ n = 2 ∨ n = 3 ∨ n = 4 ∨ n = 5 ∨ n = 6 ∨ n = 7)
    as [->|[->|[->|[->|[->|[->|[->| ->]]]]]]] by lia; done.
Qed.

Lemma bitstream_inj l1 : ∀ l2,
  Forall (λ b, 0 ≤ b < 256) l1 → Forall (λ b, 0 ≤ b < 256) l2 →
  l1 ≫= Spec.bits8 = l2 ≫= Spec.bits8 → l1 = l2.
Proof.
  induction l1 as [|a l1 IH]; intros [|b l2] H1 H2 Heq; [done|done|done|].
  apply Forall_cons in H1 as [Ha H1]. apply Forall_cons in H2 as [Hb H2].
  rewrite !bind_cons in Heq.
  apply app_inj_1 in Heq as [Hhd Htl]; [|done].
  f_equal; [by apply bits8_inj|by apply IH].
Qed.

Lemma lower_Encode_inj l1 l2 :
  Forall (λ b, 0 ≤ b < 256) l1 → Forall (λ b, 0 ≤ b < 256) l2 →
  length l1 = length l2 →
  strings.lower <$> base32.Encode l1 = strings.lower <$> base32.Encode l2 →
  l1 = l2.
Proof.
  intros H1 H2 Hlen Heq. rewrite !Encode_rfc4648 in Heq by done.
  unfold Spec.base32 in Heq. rewrite <-!list_fmap_compose in Heq.
  apply characters_inj in Heq; [by apply bitstream_inj|].
  assert (∀ l : list Z, length (l ≫= Spec.bits8) = (8 * length l)%nat) as Hbits.
  { induction l as [|c l IHl]; [done|]. rewrite bind_cons, length_app, IHl. simpl. lia. }
  rewrite !Hbits. lia.
Qed.

Lemma text_inj D1 D2 : text D1 = text D2 → sha256.Sum224 D1 = sha256.Sum224 D2.
Proof.
  unfold text, base32.EncodeToString. intros Heq.
  apply lower_Encode_inj in Heq.
  - apply app_inj_1 in Heq as [_ Heq]; [|by rewrite !PutUint32_length].
    apply app_inj_1 in Heq as [Heq _]; [done|by rewrite !Sum224_length].
  - rewrite !Forall_app. split; [apply PutUint32_bytes|].
    split; [apply Sum224_bytes|]. by repeat constructor.
  - rewrite !Forall_app. split; [apply PutUint32_bytes|].
    split; [apply Sum224_bytes|]. by repeat constructor.
  - by rewrite !length_app, !PutUint32_length, !Sum224_length.
Qed.

Section Injective.
Variable mapLower : gostring → gostring.

(** X4: two byte sequences have the same principal exactly when they have
    the same SHA-224 digest: the checksum, the text encoding and the
    chunking lose nothing of the digest. *)
Theorem SelfAuthenticating_digest D1 D2 :
  SelfAuthenticating mapLower D1 = SelfAuthenticating mapLower D2 ↔
  sha256.Sum224 D1 = sha256.Sum224 D2.
Proof.
  split.
  - rewrite !SelfAuthenticating_groups. intros Heq.
    apply text_inj. rewrite <-(principal_unhyphen D1), <-(principal_unhyphen D2).
    f_equal. congruence.
  - intros Heq. unfold SelfAuthenticating. cbv zeta. rewrite Heq. reflexivity.
Qed.

End Injective.

(** ** [EncodeECPubKey] on any point *)

Lemma FillBytes_abs x :
  big.FillBytes x 32
  = if bool_decide (Z.abs x < 2 ^ 256) then Some (SpecDER.pad32 (Z.abs x)) else None.
Proof.
  case_bool_decide as Hx.
  - rewrite <-FillBytes_pad32 by lia. unfold big.FillBytes.
    by rewrite (Z.abs_eq (Z.abs x)) by lia.
  - unfold big.FillBytes. by rewrite bool_decide_false.
Qed.

Lemma EncodeECPubKey_cases pubKey :
  EncodeECPubKey pubKey
  = match elliptic.panicIfNotOnCurve btcec.S256 (btcec.X pubKey) (btcec.Y pubKey) with
    | Some _ =>
        if bool_decide (Z.abs (btcec.X pubKey) < 2 ^ 256) then
          if bool_decide (Z.abs (btcec.Y pubKey) < 2 ^ 256) then
            Some (SpecDER.EncodedPublicKeyRecord
                    (Z.abs (btcec.X pubKey)) (Z.abs (btcec.Y pubKey)), None)
          else None
        else None
    | None => None
    end.
Proof.
  unfold EncodeECPubKey, elliptic.Marshal, btcec.ToECDSA. cbv zeta.
  destruct (elliptic.panicIfNotOnCurve _ _ _) as [[]|]; [|done].
  cbn [mbind option_bind].
  change (Z.to_nat ((elliptic.BitSize btcec.S256 + 7) / 8)) with 32%nat.
  rewrite !FillBytes_abs.
  destruct (bool_decide (Z.abs (btcec.X pubKey) < 2 ^ 256)); [|done].
  cbn [mbind option_bind].
  destruct (bool_decide (Z.abs (btcec.Y pubKey) < 2 ^ 256)); [|done].
  cbn [mbind option_bind].
  rewrite Marshal_ECPubKey; [done|].
  cbn [length]. by rewrite length_app, !pad32_length.
Qed.

Lemma EncodedPublicKeyRecord_length x y :
  length (SpecDER.EncodedPublicKeyRecord x y) = 88%nat.
Proof.
  rewrite EncodedPublicKeyRecord_bytes. rewrite !length_app, !pad32_length. done.
Qed.

Lemma EncodeECPubKey_some pubKey der err :
  EncodeECPubKey pubKey = Some (der, err) →
  der = SpecDER.EncodedPublicKeyRecord (Z.abs (btcec.X pubKey)) (Z.abs (btcec.Y pubKey)) ∧
  err = None.
Proof.
  rewrite EncodeECPubKey_cases.
  destruct (elliptic.panicIfNotOnCurve _ _ _); [|done].
  repeat case_bool_decide; try done. by intros [= <- <-].
Qed.

(** X5: whenever [EncodeECPubKey] returns, it returns no error and the
    88 bytes of the record of the magnitudes of the coordinates. *)
Theorem EncodeECPubKey_returns pubKey der err :
  EncodeECPubKey pubKey = Some (der, err) →
  err = None ∧ length der = 88%nat ∧
  der = SpecDER.EncodedPublicKeyRecord (Z.abs (btcec.X pubKey)) (Z.abs (btcec.Y pubKey)).
Proof.
  intros [-> ->]%EncodeECPubKey_some. by rewrite EncodedPublicKeyRecord_length.
Qed.

Lemma EncodeECPubKey_returns_witness :
  EncodeECPubKey keychain.G1
  = Some (SpecDER.EncodedPublicKeyRecord (btcec.X keychain.G1) (btcec.Y keychain.G1), None) ∧
  (None : option error) = None ∧
  length (SpecDER.EncodedPublicKeyRecord (btcec.X keychain.G1) (btcec.Y keychain.G1)) = 88%nat ∧
  SpecDER.EncodedPublicKeyRecord (btcec.X keychain.G1) (btcec.Y keychain.G1)
  = SpecDER.EncodedPublicKeyRecord (Z.abs (btcec.X keychain.G1)) (Z.abs (btcec.Y keychain.G1)).
Proof.
  assert (EncodeECPubKey keychain.G1
    = Some (SpecDER.EncodedPublicKeyRecord (btcec.X keychain.G1) (btcec.Y keychain.G1), None)) as H.
  { vm_compute. reflexivity. }
  split; [exact H|]. exact (EncodeECPubKey_returns _ _ _ H).
Defined.

(** X6: [EncodeECPubKey] panics exactly on a point that is neither on the
    curve nor the pair (0, 0), and on a coordinate that does not fit 32
    bytes. *)
Theorem EncodeECPubKey_panics pubKey :
  EncodeECPubKey pubKey = None ↔
  (¬ (btcec.X pubKey = 0 ∧ btcec.Y pubKey = 0) ∧
   (Z.abs (btcec.Y pubKey) * Z.abs (btcec.Y pubKey)) mod btcec.fieldPrime
   ≠ (Z.abs (btcec.X pubKey) * Z.abs (btcec.X pubKey) * Z.abs (btcec.X pubKey) + 7)
       mod btcec.fieldPrime) ∨
  2 ^ 256 ≤ Z.abs (btcec.X pubKey) ∨ 2 ^ 256 ≤ Z.abs (btcec.Y pubKey).
Proof.
  rewrite EncodeECPubKey_cases. unfold elliptic.panicIfNotOnCurve.
  cbn [elliptic.IsOnCurve btcec.S256]. unfold btcec.IsOnCurve.
  destruct pubKey as [c x y]. cbn [btcec.X btcec.Y].
  set (lhs := (Z.abs y * Z.abs y) mod btcec.fieldPrime).
  set (rhs := (Z.abs x * Z.abs x * Z.abs x + 7) mod btcec.fieldPrime).
  assert (2 ^ 256 = 115792089237316195423570985008687907853269984665640564039457584007913129639936)
    as Hpow by done.
  destruct (decide (x = 0 ∧ y = 0)) as [[-> ->]|Hne].
  - rewrite !bool_decide_true by done. cbn [andb Z.abs].
    split; [done|]. intros [[H _]|[?|?]]; [by destruct H|lia..].
  - assert (bool_decide (x = 0) && bool_decide (y = 0) = false) as ->.
    { apply andb_false_iff. rewrite !bool_decide_eq_false.
      destruct (decide (x = 0)) as [->|]; [right; intros ->; by apply Hne|by left]. }
    destruct (decide (lhs = rhs)) as [Heq|Hneq].
    + rewrite (bool_decide_true (lhs = rhs)) by done.
      repeat case_bool_decide; (split; [try done; intros _; lia|]);
        intros [[_ ?]|[?|?]]; try done; lia.
    + rewrite (bool_decide_false (lhs = rhs)) by done. split; [|done]. by left.
Qed.

Lemma be_value_app l1 l2 :
  SpecDER.be_value (l1 ++ l2)
  = SpecDER.be_value l1 * 256 ^ Z.of_nat (length l2) + SpecDER.be_value l2.
Proof.
  unfold SpecDER.be_value. rewrite foldl_app. generalize (foldl (λ acc b, 256 * acc + b) 0 l1).
  induction l2 as [|b l2 IH] using rev_ind; intros a.
  - cbn. lia.
  - rewrite !foldl_app. cbn [foldl]. rewrite IH, (IH 0), length_app. cbn [length].
    rewrite Nat2Z.inj_add, Z.pow_add_r by lia. change (256 ^ Z.of_nat 1) with 256. lia.
Qed.

Lemma be_value_digits v (n : nat) :
  0 ≤ v →
  SpecDER.be_value ((λ k, (v / 2 ^ (8 * k)) mod 256) <$> reverse (seqZ 0 (Z.of_nat n)))
  = v mod 2 ^ (8 * Z.of_nat n).
Proof.
  intros Hv. induction n as [|n IH].
  - cbn. by rewrite Z.mod_1_r.
  - rewrite Nat2Z.inj_succ, <-Z.add_1_r, seqZ_app by lia.
    rewrite reverse_app, fmap_app. 
    change (seqZ (0 + Z.of_nat n) 1) with [0 + Z.of_nat n].
    cbn [reverse fmap list_fmap rev_append app]. rewrite Z.add_0_l.
    change ((v `div` 2 ^ (8 * Z.of_nat n)) `mod` 256 :: ?l) with ([(v `div` 2 ^ (8 * Z.of_nat n)) `mod` 256] ++ l).
    rewrite (be_value_app [_]), IH. rewrite length_fmap, length_reverse, length_seqZ, Nat2Z.id.
    change (SpecDER.be_value [?a]) with (256 * 0 + a).
    replace (8 * (Z.of_nat n + 1)) with (8 * Z.of_nat n + 8) by lia.
    rewrite (Z.pow_add_r 2) by lia. rewrite Z.rem_mul_r by lia.
    replace (256 ^ Z.of_nat n) with (2 ^ (8 * Z.of_nat n)).
    2:{ rewrite Z.pow_mul_r by lia. done. }
    change (2 ^ 8) with 256. lia.
Qed.

Lemma be_value_pad32 v : 0 ≤ v < 2 ^ 256 → SpecDER.be_value (SpecDER.pad32 v) = v.
Proof.
  intros Hv. unfold SpecDER.pad32. change (seqZ 0 32) with (seqZ 0 (Z.of_nat 32)).
  rewrite be_value_digits by lia. change (8 * Z.of_nat 32) with 256.
  by rewrite Z.mod_small.
Qed.

(** X7: the coordinates of a valid public key are read back from the
    bytes [EncodeECPubKey] returns, X at offset 24 and Y at offset 56. *)
Theorem EncodeECPubKey_decodes pubKey :
  valid_point pubKey →
  ∃ der, EncodeECPubKey pubKey = Some (der, None) ∧
         SpecDER.be_value (take 32 (drop 24 der)) = btcec.X pubKey ∧
         SpecDER.be_value (take 32 (drop 56 der)) = btcec.Y pubKey.
Proof.
  intros Hv. pose proof Hv as (Hx & Hy & _). pose proof fieldPrime_lt.
  eexists. split; [by apply EncodeECPubKey_valid|].
  rewrite EncodedPublicKeyRecord_bytes.
  split.
  - rewrite drop_app_length' by done. rewrite take_app_length' by done.
    apply be_value_pad32. lia.
  - rewrite app_assoc. rewrite drop_app_length' by (rewrite length_app, pad32_length; done).
    rewrite take_ge by (rewrite pad32_length; lia). apply be_value_pad32. lia.
Qed.

Lemma valid_G1 : valid_point keychain.G1.
Proof. unfold valid_point. split; [|split]; vm_compute; [split; congruence..|reflexivity]. Qed.

Lemma valid_G2 : valid_point keychain.G2.
Proof. unfold valid_point. split; [|split]; vm_compute; [split; congruence..|reflexivity]. Qed.

Lemma EncodeECPubKey_decodes_witness :
  valid_point keychain.G2 ∧
  ∃ der, EncodeECPubKey keychain.G2 = Some (der, None) ∧
         SpecDER.be_value (take 32 (drop 24 der)) = btcec.X keychain.G2 ∧
         SpecDER.be_value (take 32 (drop 56 der)) = btcec.Y keychain.G2.
Proof.
  assert (valid_point keychain.G2) as Hv.
  { unfold valid_point. split; [|split]; vm_compute; [split; congruence..|reflexivity]. }
  split; [exact Hv|]. exact (EncodeECPubKey_decodes keychain.G2 Hv).
Defined.

(** X8: on valid public keys [EncodeECPubKey] is injective in the point. *)
Theorem EncodeECPubKey_injective pubKey1 pubKey2 :
  valid_point pubKey1 → valid_point pubKey2 →
  EncodeECPubKey pubKey1 = EncodeECPubKey pubKey2 →
  btcec.X pubKey1 = btcec.X pubKey2 ∧ btcec.Y pubKey1 = btcec.Y pubKey2.
Proof.
  intros Hv1 Hv2 Heq.
  pose proof Hv1 as (Hx1 & Hy1 & _). pose proof Hv2 as (Hx2 & Hy2 & _).
  pose proof fieldPrime_lt.
  rewrite !EncodeECPubKey_valid in Heq by done.
  assert (SpecDER.EncodedPublicKeyRecord (btcec.X pubKey1) (btcec.Y pubKey1)
          = SpecDER.EncodedPublicKeyRecord (btcec.X pubKey2) (btcec.Y pubKey2))
    as Hrec by congruence.
  clear Heq. rename Hrec into Heq. rewrite !EncodedPublicKeyRecord_bytes in Heq.
  apply app_inv_head in Heq.
  apply app_inj_1 in Heq as [HX HY]; [|by rewrite !pad32_length].
  apply (f_equal SpecDER.be_value) in HX, HY.
  by rewrite !be_value_pad32 in HX, HY by lia.
Qed.

Lemma EncodeECPubKey_injective_witness :
  btcec.X (keychain.point (btcec.X keychain.G3) (btcec.Y keychain.G3)) = btcec.X keychain.G3 ∧
  btcec.Y (keychain.point (btcec.X keychain.G3) (btcec.Y keychain.G3)) = btcec.Y keychain.G3.
Proof.
  assert (valid_point keychain.G3) as Hv.
  { unfold valid_point. split; [|split]; vm_compute; [split; congruence..|reflexivity]. }
  apply (EncodeECPubKey_injective _ keychain.G3 Hv Hv). reflexivity.
Defined.

(** ** [ECPubKeyToPrincipal] and [generate]: errors, panics, prefixes *)

Lemma seqZ_decompose n l1 i l2 :
  seqZ 0 n = l1 ++ i :: l2 → 0 ≤ i < n ∧ l1 = seqZ 0 i.
Proof.
  intros Heq.
  assert (0 ≤ i < n) as Hi.
  { assert (i ∈ seqZ 0 n) as Hin by (rewrite Heq, elem_of_app, elem_of_cons; auto).
    apply elem_of_seqZ in Hin. lia. }
  split; [done|].
  assert (seqZ 0 n !! length l1 = Some i) as Hl.
  { rewrite Heq. by rewrite list_lookup_middle. }
  apply lookup_seqZ in Hl as [Hl _].
  rewrite (seqZ_split i n) in Heq by done.
  apply app_inj_1 in Heq as [Heq _]; [done|]. rewrite length_seqZ. lia.
Qed.

Section Driver.
Variable mapLower : gostring → gostring.
Variable ExtendedKey : Type.
Variable Child : ExtendedKey → Z → error + ExtendedKey.
Variable ExtendedKey_ECPubKey : ExtendedKey → error + btcec.PublicKey.

Local Abbreviation generate := (main.generate mapLower ExtendedKey Child ExtendedKey_ECPubKey).
Local Abbreviation generate_body := (main.generate_body mapLower ExtendedKey Child ExtendedKey_ECPubKey).
Local Abbreviation derive_leaf := (main.derive_leaf ExtendedKey Child ExtendedKey_ECPubKey).
Local Abbreviation iteration_ok := (main.iteration_ok mapLower ExtendedKey Child ExtendedKey_ECPubKey).
Local Abbreviation collaborator_fails := (main.collaborator_fails mapLower ExtendedKey Child ExtendedKey_ECPubKey).
Local Abbreviation ECPubKeyToPrincipal := (main.ECPubKeyToPrincipal mapLower).

Lemma ECPubKeyToPrincipal_cases pubKey :
  ECPubKeyToPrincipal pubKey
  = match EncodeECPubKey pubKey with
    | Some _ =>
        Some (Spec.Principal
                (SpecDER.EncodedPublicKeyRecord
                   (Z.abs (btcec.X pubKey)) (Z.abs (btcec.Y pubKey))), None)
    | None => None
    end.
Proof.
  rewrite ECPubKeyToPrincipal_unfold.
  destruct (EncodeECPubKey pubKey) as [[der err]|] eqn:Hder; [|reflexivity].
  apply EncodeECPubKey_some in Hder as [-> ->].
  rewrite SelfAuthenticating_Principal. reflexivity.
Qed.

(** X9: [ECPubKeyToPrincipal] never returns an error: its error branch is
    dead; it panics exactly when [EncodeECPubKey] does, and otherwise
    returns the principal of the encoded record. *)
Theorem ECPubKeyToPrincipal_never_fails pubKey :
  (ECPubKeyToPrincipal pubKey = None ↔ EncodeECPubKey pubKey = None) ∧
  ∀ p err, ECPubKeyToPrincipal pubKey = Some (p, err) →
           err = None ∧
           ∃ der, EncodeECPubKey pubKey = Some (der, None) ∧
                  SelfAuthenticating mapLower der = Some p.
Proof.
  rewrite ECPubKeyToPrincipal_cases.
  destruct (EncodeECPubKey pubKey) as [[der err]|] eqn:Hder.
  - apply EncodeECPubKey_some in Hder as [-> ->].
    split; [split; intros H; discriminate H|].
    intros p err H. injection H as <- <-. split; [reflexivity|].
    eexists. split; [reflexivity|]. apply SelfAuthenticating_Principal.
  - split; [split; reflexivity|]. intros p err H. discriminate H.
Qed.

Lemma generate_body_ret_inv m0 result i ret :
  generate_body m0 result i = Some (inr ret) →
  ∃ e, ret = ([], Some e) ∧ derive_leaf m0 i = inl e.
Proof.
  rewrite generate_body_unfold.
  destruct (derive_leaf m0 i) as [e|pk]; [intros [= <-]; eauto|].
  rewrite ECPubKeyToPrincipal_cases.
  destruct (EncodeECPubKey pk); intros H; discriminate H.
Qed.

Lemma generate_body_panic m0 result i :
  generate_body m0 result i = None ↔
  ∃ pubKey, derive_leaf m0 i = inr pubKey ∧ EncodeECPubKey pubKey = None.
Proof.
  rewrite generate_body_unfold.
  destruct (derive_leaf m0 i) as [e|pk].
  - split; [done|]. by intros (pk & ? & _).
  - rewrite ECPubKeyToPrincipal_cases.
    destruct (EncodeECPubKey pk) eqn:Hpk; cbn [mbind option_bind].
    + split; [intros H; discriminate H|]. intros (pk' & [= <-] & ?). congruence.
    + split; [|reflexivity]. intros _. by exists pk.
Qed.

Lemma for_loop_ret_inv m0 l : ∀ acc ret,
  for_loop (generate_body m0) acc l = Some (inr ret) →
  ∃ l1 i l2 ps e, l = l1 ++ i :: l2 ∧ Forall2 (iteration_ok m0) l1 ps ∧
                  derive_leaf m0 i = inl e ∧ ret = ([], Some e).
Proof.
  induction l as [|i l IH]; intros acc ret Hret; [done|].
  cbn [for_loop] in Hret.
  destruct (generate_body m0 acc i) as [[acc'|ret']|] eqn:Hbody; [| |done].
  - apply generate_body_ok_inv in Hbody as (p & Hp & ->).
    apply IH in Hret as (l1 & j & l2 & ps & e & -> & Hps & He & ->).
    exists (i :: l1), j, l2, (p :: ps), e. by repeat split; [constructor|..].
  - injection Hret as <-.
    apply generate_body_ret_inv in Hbody as (e & -> & He).
    by exists [], i, l, [], e.
Qed.

Lemma for_loop_panic_inv m0 l : ∀ acc,
  for_loop (generate_body m0) acc l = None →
  ∃ l1 i l2 ps pubKey, l = l1 ++ i :: l2 ∧ Forall2 (iteration_ok m0) l1 ps ∧
                       derive_leaf m0 i = inr pubKey ∧ EncodeECPubKey pubKey = None.
Proof.
  induction l as [|i l IH]; intros acc Hret; [done|].
  cbn [for_loop] in Hret.
  destruct (generate_body m0 acc i) as [[acc'|ret']|] eqn:Hbody; [|done|].
  - apply generate_body_ok_inv in Hbody as (p & Hp & ->).
    apply IH in Hret as (l1 & j & l2 & ps & pk & -> & Hps & He & Hpk).
    exists (i :: l1), j, l2, (p :: ps), pk. by repeat split; [constructor|..].
  - apply generate_body_panic in Hbody as (pk & He & Hpk).
    by exists [], i, l, [], pk.
Qed.

Lemma for_loop_panic m0 l1 i l2 ps pubKey : ∀ acc,
  Forall2 (iteration_ok m0) l1 ps →
  derive_leaf m0 i = inr pubKey → EncodeECPubKey pubKey = None →
  for_loop (generate_body m0) acc (l1 ++ i :: l2) = None.
Proof.
  intros acc Hps. revert acc. induction Hps as [|j p l1 ps Hp Hps IH]; intros acc He Hpk.
  - cbn [app for_loop].
    by rewrite (proj2 (generate_body_panic m0 acc i)) by eauto.
  - cbn [app for_loop]. rewrite (generate_body_ok _ _ _ _ _ _ _ _ Hp). by apply IH.
Qed.

Lemma Forall2_seqZ_before m0 i ps :
  Forall2 (iteration_ok m0) (seqZ 0 i) ps →
  ∀ j, 0 ≤ j < i → ∃ principal, iteration_ok m0 j principal.
Proof.
  intros [_ H]%seqZ_Forall2_lookup j Hj.
  destruct (H j Hj) as (p & _ & Hp). eauto.
Qed.

Lemma before_Forall2_seqZ m0 i :
  (∀ j, 0 ≤ j < i → ∃ principal, iteration_ok m0 j principal) →
  ∃ ps, Forall2 (iteration_ok m0) (seqZ 0 i) ps.
Proof.
  intros H. apply (proj1 (Forall_exists_Forall2_l _ _)).
  apply Forall_forall. intros j Hj%elem_of_seqZ. apply H. lia.
Qed.

(** X10: every error [generate] returns is an error of the key-derivation
    package, met on the intermediate child or at the first leaf that
    fails; the list is then nil. *)
Theorem generate_error_origin K n r err :
  generate K n = Some (r, Some err) ↔ r = [] ∧ collaborator_fails K n err.
Proof.
  split.
  - intros Hgen. split; [by eapply generate_error_nil|].
    unfold main.generate in Hgen. unfold main.collaborator_fails.
    destruct (Child K 0) as [e|m0]; [left; congruence|]. right.
    destruct (for_loop _ _ _) as [[res|ret]|] eqn:Hloop; cbn in Hgen; [done| |done].
    injection Hgen as ->.
    apply for_loop_ret_inv in Hloop as (l1 & i & l2 & ps & e & Hl & Hps & He & [= _ <-]).
    apply seqZ_decompose in Hl as [Hi ->].
    exists m0, i. repeat split; [lia..| |done].
    by eapply Forall2_seqZ_before.
  - intros [-> Hfail].
    destruct Hfail as [Hm0|(m0 & i & Hm0 & Hi & Hbefore & Hleaf)].
    + unfold main.generate. by rewrite Hm0.
    + unfold main.generate. rewrite Hm0.
      rewrite (seqZ_split i n) by done.
      destruct (before_Forall2_seqZ _ _ Hbefore) as [ps Hps].
      by rewrite (for_loop_fail _ _ _ _ _ _ _ _ ps err [] Hps Hleaf).
Qed.

Lemma generate_panic_inv K n :
  generate K n = None →
  ∃ m0 i pubKey,
    Child K 0 = inr m0 ∧ 0 ≤ i < n ∧
    (∀ j, 0 ≤ j < i → ∃ principal, iteration_ok m0 j principal) ∧
    derive_leaf m0 i = inr pubKey ∧ EncodeECPubKey pubKey = None.
Proof.
  unfold main.generate.
  destruct (Child K 0) as [e|m0]; [done|].
  destruct (for_loop _ _ _) as [[res|ret]|] eqn:Hloop; cbn; [done..|]. intros _.
  apply for_loop_panic_inv in Hloop as (l1 & i & l2 & ps & pk & Hl & Hps & He & Hpk).
  apply seqZ_decompose in Hl as [Hi ->].
  exists m0, i, pk. repeat split; [lia..| |done|done].
  by eapply Forall2_seqZ_before.
Qed.

(** X11: [generate] panics exactly when the loop reaches a leaf whose
    public key [EncodeECPubKey] panics on. *)
Theorem generate_panics K n :
  generate K n = None ↔
  ∃ m0 i pubKey,
    Child K 0 = inr m0 ∧ 0 ≤ i < n ∧
    (∀ j, 0 ≤ j < i → ∃ principal, iteration_ok m0 j principal) ∧
    derive_leaf m0 i = inr pubKey ∧ EncodeECPubKey pubKey = None.
Proof.
  split; [apply generate_panic_inv|].
  intros (m0 & i & pk & Hm0 & Hi & Hbefore & Hleaf & Hpk).
  unfold main.generate. rewrite Hm0.
  rewrite (seqZ_split i n) by done.
  destruct (before_Forall2_seqZ _ _ Hbefore) as [ps Hps].
  by rewrite (for_loop_panic _ _ _ _ ps pk [] Hps Hleaf Hpk).
Qed.

(** X12: when the key-derivation package hands out valid points only,
    [generate] returns on every key and every count. *)
Theorem generate_total K n :
  (∀ key pubKey, ExtendedKey_ECPubKey key = inr pubKey → valid_point pubKey) →
  ∃ r, generate K n = Some r.
Proof.
  intros Hvalid. destruct (generate K n) as [r|] eqn:Hgen; [eauto|]. exfalso.
  apply generate_panic_inv in Hgen as (m0 & i & pk & _ & _ & _ & Hleaf & Hpk).
  unfold main.derive_leaf in Hleaf.
  destruct (Child m0 (uint32 i)) as [e|c]; [done|].
  apply Hvalid in Hleaf. by rewrite EncodeECPubKey_valid in Hpk.
Qed.

(** X13: a run that returns a list returns, for every smaller count, the
    prefix of that list. *)
Theorem generate_prefix K n m ps :
  generate K n = Some (ps, None) → 0 ≤ m ≤ n →
  generate K m = Some (take (Z.to_nat m) ps, None).
Proof.
  intros (m0 & Hm0 & H)%generate_success_iff Hm.
  apply generate_success_iff. exists m0. split; [done|].
  apply seqZ_Forall2_lookup in H as [Hlen H]. apply seqZ_Forall2_lookup.
  split; [rewrite length_take; lia|].
  intros i Hi. destruct (H i) as (p & Hp & Hok); [lia|].
  exists p. split; [|done]. rewrite lookup_take_lt by lia. done.
Qed.


(** X15: every string [generate] returns is a well-formed principal: 63
    characters, each a hyphen or one of [a]..[z], [2]..[7]; there are as
    many as the count asks for. *)
Theorem generate_principals_wellformed K n ps :
  generate K n = Some (ps, None) →
  length ps = Z.to_nat n ∧
  Forall (λ p, length p = 63%nat ∧
               Forall (λ c, c = chr "-" ∨ chr "a" ≤ c ≤ chr "z" ∨
                            chr "2" ≤ c ≤ chr "7") p) ps.
Proof.
  intros Hgen. split; [|by eapply generate_principals_shape].
  apply generate_success_iff in Hgen as (m0 & _ & H).
  by apply seqZ_Forall2_lookup in H as [? _].
Qed.

End Driver.

(** ** [run] and [main]: what the process writes *)

Lemma foldl_Println ps : ∀ w,
  foldl Println w ps
  = World (stdout w ++ concat ((λ p, p ++ [chr "010"]) <$> ps)) (stderr w).
Proof.
  induction ps as [|p ps IH]; intros [out err]; cbn [foldl fmap list_fmap concat].
  - cbn. by rewrite app_nil_r.
  - rewrite IH. unfold Println. cbn [stdout stderr]. by rewrite <-!app_assoc.
Qed.

Lemma lines_length (ps : list gostring) :
  Forall (λ p, length p = 63%nat) ps →
  length (concat ((λ p, p ++ [chr "010"]) <$> ps)) = (64 * length ps)%nat.
Proof.
  induction 1 as [|p ps Hp _ IH]; [done|].
  cbn [fmap list_fmap concat length]. rewrite !length_app, IH, Hp. cbn [length]. lia.
Qed.

Section Process.
Variable mapLower : gostring → gostring.
Variable ExtendedKey : Type.
Variable Child : ExtendedKey → Z → error + ExtendedKey.
Variable ExtendedKey_ECPubKey : ExtendedKey → error + btcec.PublicKey.
Variable NewKeyFromString : gostring → error + ExtendedKey.
Variable defaults : bytes.

Local Abbreviation generate := (main.generate mapLower ExtendedKey Child ExtendedKey_ECPubKey).
Local Abbreviation run :=
  (main.run mapLower ExtendedKey Child ExtendedKey_ECPubKey NewKeyFromString).
Local Abbreviation main :=
  (main.main mapLower ExtendedKey Child ExtendedKey_ECPubKey NewKeyFromString defaults).

Lemma run_unfold w argXPubKey argN :
  run w argXPubKey argN
  = match NewKeyFromString argXPubKey with
    | inl err => Some (w, Some err)
    | inr masterXPubKey =>
        match generate masterXPubKey argN with
        | Some (_, Some err) => Some (w, Some err)
        | Some (principals, None) => Some (foldl Println w principals, None)
        | None => None
        end
    end.
Proof.
  unfold main.run. destruct (NewKeyFromString argXPubKey) as [e|K]; [reflexivity|].
  destruct (generate K argN) as [[ps [e|]]|]; reflexivity.
Qed.

(** X17: a run that returns an error has written nothing; the error is
    the parser's or the one [generate] returned. *)
Theorem run_error_writes_nothing w argXPubKey argN w' err :
  run w argXPubKey argN = Some (w', Some err) →
  w' = w ∧
  (NewKeyFromString argXPubKey = inl err ∨
   ∃ masterXPubKey, NewKeyFromString argXPubKey = inr masterXPubKey ∧
                    generate masterXPubKey argN = Some ([], Some err)).
Proof.
  rewrite run_unfold.
  destruct (NewKeyFromString argXPubKey) as [e|K]; [intros [= <- <-]; by auto|].
  destruct (generate K argN) as [[ps [e|]]|] eqn:Hgen; [|done..].
  intros [= <- <-]. split; [done|]. right. exists K. split; [done|].
  by rewrite (generate_error_nil _ _ _ _ _ _ _ _ Hgen) in Hgen.
Qed.

(** X18: a run that returns no error has parsed the key and written the
    principals [generate] returned to the standard output, in order, one
    per line of 64 bytes, and nothing to the standard error. *)
Theorem run_prints_principals w argXPubKey argN w' :
  run w argXPubKey argN = Some (w', None) →
  ∃ masterXPubKey principals,
    NewKeyFromString argXPubKey = inr masterXPubKey ∧
    generate masterXPubKey argN = Some (principals, None) ∧
    stdout w' = stdout w ++ concat ((λ p, p ++ [chr "010"]) <$> principals) ∧
    stderr w' = stderr w ∧
    length (stdout w') = (length (stdout w) + 64 * Z.to_nat argN)%nat.
Proof.
  rewrite run_unfold.
  destruct (NewKeyFromString argXPubKey) as [e|K]; [done|].
  destruct (generate K argN) as [[ps [e|]]|] eqn:Hgen; [done| |done].
  intros [= <-]. exists K, ps. rewrite foldl_Println. cbn [stdout stderr].
  repeat split; [done..|].
  rewrite length_app, lines_length.
  - apply generate_success_iff in Hgen as (m0 & _ & H).
    apply seqZ_Forall2_lookup in H as [-> _]. done.
  - eapply Forall_impl; [by eapply generate_principals_shape|]. by intros p [? _].
Qed.

(** X19: the process exits with status 0 or 1; with status 0 it has run
    without error and written nothing to the standard error; with status
    1 it has written nothing to the standard output, and the usage or a
    line that starts with [Error: ] to the standard error. *)
Theorem main_exit_status w argXPubKey argN w' code :
  main w argXPubKey argN = Some (w', code) →
  (code = 0 ∧ argXPubKey ≠ [] ∧ run w argXPubKey argN = Some (w', None) ∧
   stderr w' = stderr w) ∨
  (code = 1 ∧ stdout w' = stdout w ∧
   (argXPubKey = [] ∧ stderr w' = stderr w ++ defaults ∨
    ∃ err, argXPubKey ≠ [] ∧ run w argXPubKey argN = Some (w, Some err) ∧
           stderr w' = stderr w ++ str "Error: " ++ str err ++ [chr "010"])).
Proof.
  unfold main.main. case_bool_decide as Hx.
  - intros [= <- <-]. right. cbn [stdout stderr]. by auto.
  - rewrite run_unfold. destruct (NewKeyFromString argXPubKey) as [e|K].
    + cbn [mbind option_bind]. intros [= <- <-]. right. cbn [stdout stderr].
      do 2 (split; [done|]). right. by exists e.
    + destruct (generate K argN) as [[ps [e|]]|]; cbn [mbind option_bind]; [| |done].
      * intros [= <- <-]. right. cbn [stdout stderr].
        do 2 (split; [done|]). right. by exists e.
      * intros [= <- <-]. left. do 3 (split; [done|]).
        by rewrite foldl_Println.
Qed.

(** X20: the process panics exactly when [generate] does. *)
Theorem main_panics w argXPubKey argN :
  main w argXPubKey argN = None ↔
  argXPubKey ≠ [] ∧
  ∃ masterXPubKey, NewKeyFromString argXPubKey = inr masterXPubKey ∧
                   generate masterXPubKey argN = None.
Proof.
  unfold main.main. case_bool_decide as Hx.
  - split; [done|]. by intros [? _].
  - rewrite run_unfold. destruct (NewKeyFromString argXPubKey) as [e|K].
    + cbn [mbind option_bind]. split; [done|]. by intros (_ & K & ? & _).
    + destruct (generate K argN) as [[ps [e|]]|] eqn:Hgen; cbn [mbind option_bind].
      * split; [done|]. intros (_ & K' & [= <-] & ?). congruence.
      * split; [done|]. intros (_ & K' & [= <-] & ?). congruence.
      * split; [|done]. intros _. split; [done|]. by exists K.
Qed.

End Process.

(** ** The further properties on the small key-derivation package *)

Lemma keychain_valid_points key pubKey :
  keychain.ECPubKey key = inr pubKey → valid_point pubKey.
Proof.
  unfold keychain.ECPubKey. intros [= <-].
  assert (valid_point keychain.G3) as H3.
  { unfold valid_point. split; [|split]; vm_compute; [split; congruence..|reflexivity]. }
  assert (valid_point keychain.G4) as H4.
  { unfold valid_point. split; [|split]; vm_compute; [split; congruence..|reflexivity]. }
  destruct (keychain.childNum key `mod` 4) as [|[p|[p|p|]|]|p];
    first [exact valid_G1|exact valid_G2|exact H3|exact H4].
Qed.

Lemma ECPubKeyToPrincipal_never_fails_witness :
  ECPubKeyToPrincipal id keychain.G1 = Some (p1, None) ∧
  (None : option error) = None ∧
  ∃ der, EncodeECPubKey keychain.G1 = Some (der, None) ∧
         SelfAuthenticating id der = Some p1.
Proof.
  assert (ECPubKeyToPrincipal id keychain.G1 = Some (p1, None)) as H
    by (vm_compute; reflexivity).
  split; [exact H|].
  exact (proj2 (ECPubKeyToPrincipal_never_fails id keychain.G1) p1 None H).
Defined.

Lemma generate_error_origin_witness :
  keychain.generate keychain.master_invalid1 3
  = Some ([], Some keychain.ErrInvalidChild) ∧
  ([] : list gostring) = [] ∧
  collaborator_fails id keychain.ExtendedKey keychain.Child keychain.ECPubKey
    keychain.master_invalid1 3 keychain.ErrInvalidChild.
Proof.
  assert (keychain.generate keychain.master_invalid1 3
          = Some ([], Some keychain.ErrInvalidChild)) as H
    by (vm_compute; reflexivity).
  split; [exact H|].
  exact (proj1 (generate_error_origin id keychain.ExtendedKey keychain.Child
                  keychain.ECPubKey keychain.master_invalid1 3 []
                  keychain.ErrInvalidChild) H).
Defined.

Lemma generate_panics_witness :
  main.generate id unit (λ _ _, inr ()) (λ _, inr (keychain.point 1 1)) () 1 = None.
Proof.
  apply (proj2 (generate_panics id unit (λ _ _, inr ())
                  (λ _, inr (keychain.point 1 1)) () 1)).
  exists (), 0, (keychain.point 1 1).
  split; [reflexivity|]. split; [lia|]. split; [intros j Hj; lia|].
  split; [reflexivity|]. vm_compute. reflexivity.
Defined.

Lemma generate_total_witness :
  (∀ key pubKey, keychain.ECPubKey key = inr pubKey → valid_point pubKey) ∧
  ∃ r, keychain.generate keychain.master_invalid1 2 = Some r.
Proof.
  split; [exact keychain_valid_points|].
  exact (generate_total id keychain.ExtendedKey keychain.Child keychain.ECPubKey
           keychain.master_invalid1 2 keychain_valid_points).
Defined.

Lemma generate_prefix_witness :
  keychain.generate keychain.master 3 = Some ([p1; p2; p3], None) ∧ 0 ≤ 2 ≤ 3 ∧
  keychain.generate keychain.master 2 = Some (take (Z.to_nat 2) [p1; p2; p3], None).
Proof.
  assert (keychain.generate keychain.master 3 = Some ([p1; p2; p3], None)) as H
    by (vm_compute; reflexivity).
  split; [exact H|]. split; [lia|].
  apply (generate_prefix id keychain.ExtendedKey keychain.Child keychain.ECPubKey
           keychain.master 3 2 [p1; p2; p3] H). lia.
Defined.

Lemma generate_principals_wellformed_witness :
  keychain.generate keychain.master 2 = Some ([p1; p2], None) ∧
  length [p1; p2] = Z.to_nat 2 ∧
  Forall (λ p, length p = 63%nat ∧
               Forall (λ c, c = chr "-" ∨ chr "a" ≤ c ≤ chr "z" ∨
                            chr "2" ≤ c ≤ chr "7") p) [p1; p2].
Proof.
  assert (keychain.generate keychain.master 2 = Some ([p1; p2], None)) as H
    by (vm_compute; reflexivity).
  split; [exact H|].
  exact (generate_principals_wellformed id keychain.ExtendedKey keychain.Child
           keychain.ECPubKey keychain.master 2 [p1; p2] H).
Defined.

Lemma generate_index_order_bounded_witness :
  0 ≤ 2 ≤ 2 ^ 32 ∧
  (keychain.generate keychain.master 2 = Some ([p1; p2], None) ↔
   ∃ m0, keychain.Child keychain.master 0 = inr m0 ∧
         length [p1; p2] = Z.to_nat 2 ∧
         ∀ i, 0 ≤ i < 2 →
              ∃ child pubKey p,
                keychain.Child m0 i = inr child ∧
                keychain.ECPubKey child = inr pubKey ∧
                ECPubKeyToPrincipal id pubKey = Some (p, None) ∧
                [p1; p2] !! Z.to_nat i = Some p).
Proof.
  split; [lia|].
  apply (generate_index_order_bounded id keychain.ExtendedKey keychain.Child
           keychain.ECPubKey keychain.master 2 [p1; p2]). lia.
Defined.

Lemma run_error_writes_nothing_witness :
  keychain.run (World [] []) (str "xpub/invalid1") 3
  = Some (World [] [], Some keychain.ErrInvalidChild) ∧
  World [] [] = World [] [] ∧
  (keychain.NewKeyFromString (str "xpub/invalid1") = inl keychain.ErrInvalidChild ∨
   ∃ masterXPubKey,
     keychain.NewKeyFromString (str "xpub/invalid1") = inr masterXPubKey ∧
     keychain.generate masterXPubKey 3 = Some ([], Some keychain.ErrInvalidChild)).
Proof.
  assert (keychain.run (World [] []) (str "xpub/invalid1") 3
          = Some (World [] [], Some keychain.ErrInvalidChild)) as H
    by (vm_compute; reflexivity).
  split; [exact H|].
  exact (run_error_writes_nothing id keychain.ExtendedKey keychain.Child
           keychain.ECPubKey keychain.NewKeyFromString
           (World [] []) (str "xpub/invalid1") 3 (World [] [])
           keychain.ErrInvalidChild H).
Defined.

Lemma run_prints_principals_witness :
  keychain.run (World [] []) (str "xpub/master") 2
  = Some (World (p1 ++ [chr "010"] ++ p2 ++ [chr "010"]) [], None) ∧
  ∃ masterXPubKey principals,
    keychain.NewKeyFromString (str "xpub/master") = inr masterXPubKey ∧
    keychain.generate masterXPubKey 2 = Some (principals, None) ∧
    stdout (World (p1 ++ [chr "010"] ++ p2 ++ [chr "010"]) [])
    = stdout (World [] []) ++ concat ((λ p, p ++ [chr "010"]) <$> principals) ∧
    stderr (World (p1 ++ [chr "010"] ++ p2 ++ [chr "010"]) []) = stderr (World [] []) ∧
    length (stdout (World (p1 ++ [chr "010"] ++ p2 ++ [chr "010"]) []))
    = (length (stdout (World [] [])) + 64 * Z.to_nat 2)%nat.
Proof.
  assert (keychain.run (World [] []) (str "xpub/master") 2
          = Some (World (p1 ++ [chr "010"] ++ p2 ++ [chr "010"]) [], None)) as H
    by (vm_compute; reflexivity).
  split; [exact H|].
  exact (run_prints_principals id keychain.ExtendedKey keychain.Child
           keychain.ECPubKey keychain.NewKeyFromString
           (World [] []) (str "xpub/master") 2 _ H).
Defined.

Lemma main_exit_status_witness :
  keychain.main (World [] []) (str "xpub/deepest") 8
  = Some (World [] (str "Error: " ++ str keychain.ErrDeriveBeyondMaxDepth ++ [chr "010"]),
          1) ∧
  ((1 = 0 ∧ str "xpub/deepest" ≠ [] ∧
    keychain.run (World [] []) (str "xpub/deepest") 8
    = Some (World [] (str "Error: " ++ str keychain.ErrDeriveBeyondMaxDepth
                      ++ [chr "010"]), None) ∧
    stderr (World [] (str "Error: " ++ str keychain.ErrDeriveBeyondMaxDepth
                      ++ [chr "010"]))
    = stderr (World [] [])) ∨
   (1 = 1 ∧
    stdout (World [] (str "Error: " ++ str keychain.ErrDeriveBeyondMaxDepth
                      ++ [chr "010"]))
    = stdout (World [] []) ∧
    (str "xpub/deepest" = [] ∧
     stderr (World [] (str "Error: " ++ str keychain.ErrDeriveBeyondMaxDepth
                       ++ [chr "010"]))
     = stderr (World [] []) ++ str "usage" ∨
     ∃ err, str "xpub/deepest" ≠ [] ∧
            keychain.run (World [] []) (str "xpub/deepest") 8
            = Some (World [] [], Some err) ∧
            stderr (World [] (str "Error: " ++ str keychain.ErrDeriveBeyondMaxDepth
                              ++ [chr "010"]))
            = stderr (World [] []) ++ str "Error: " ++ str err ++ [chr "010"]))).
Proof.
  assert (keychain.main (World [] []) (str "xpub/deepest") 8
          = Some (World [] (str "Error: " ++ str keychain.ErrDeriveBeyondMaxDepth
                            ++ [chr "010"]), 1)) as H
    by (vm_compute; reflexivity).
  split; [exact H|].
  exact (main_exit_status id keychain.ExtendedKey keychain.Child
           keychain.ECPubKey keychain.NewKeyFromString (str "usage")
           (World [] []) (str "xpub/deepest") 8 _ 1 H).
Defined.
